(** * adb_quick_connect_wireless: subnet scan with first-success stop flag

    A shallow embedding of [adb_quick_connect_wireless.py]: the three
    sequential helpers ([get_local_network_info], [ping_host],
    [attempt_adb_connect]) as functions over an explicit description of the
    outside world, and the thread pool of [main]/[worker] as an interleaving
    step function over a shared state (stop flag, queue, thread table). *)

From Stdlib Require Import String Ascii ZArith NArith List Lia Permutation DecimalString.
From stdpp Require Import base option list gmap strings.
Import ListNotations.

Local Open Scope string_scope.

(** ** Python values used by the script *)

(** The exceptions that can occur in the script. *)
Inductive exn : Type :=
  | FileNotFoundError
  | PermissionError
  | TimeoutExpired
  | CalledProcessError (code : Z) (err : option string)
  | UnicodeDecodeError
  | TypeError
  | KeyError (key : string)
  | ValueError (msg : string)
  | QueueEmpty
  | AttributeError.

(** A Python call either returns a value or raises. *)
Inductive result (A : Type) : Type :=
  | Return (a : A)
  | Raise (e : exn).
Arguments Return {A} a.
Arguments Raise {A} e.

(** What a helper call produces: its result, the lines it printed, and the
    time it took (milliseconds). *)
Record outcome (A : Type) : Type := Outcome {
  value : result A;
  printed : list string;
  elapsed : N
}.
Arguments Outcome {A} _ _ _.
Arguments value {A} _.
Arguments printed {A} _.
Arguments elapsed {A} _.

Definition newline : string := String (ascii_of_nat 10) EmptyString.

(** [str(n)] for the integers the script formats. *)
Definition str_nat (n : nat) : string := NilZero.string_of_uint (Nat.to_uint n).
Definition str_Z (z : Z) : string := NilZero.string_of_int (Z.to_int z).

(** [needle in hay] on Python strings. *)
Fixpoint contains (needle hay : string) : bool :=
  match hay with
  | EmptyString => String.prefix needle EmptyString
  | String _ rest => String.prefix needle hay || contains needle rest
  end.

(** [str(e)] for the exceptions whose text the script can print. *)
Definition exn_str (e : exn) : string :=
  match e with
  | KeyError k => "'" ++ k ++ "'"
  | ValueError m => m
  | FileNotFoundError => "[Errno 2] No such file or directory"
  | PermissionError => "[Errno 13] Permission denied"
  | TimeoutExpired => "timed out"
  | CalledProcessError _ _ => "returned non-zero exit status"
  | UnicodeDecodeError => "codec can't decode byte"
  | TypeError => "argument of type 'NoneType' is not iterable"
  | QueueEmpty => EmptyString
  | AttributeError => "'Queue' object has no attribute 'Empty'"
  end.

(** ** The outside world *)

(** An [IPv4Address] is used by the script only through [str()]. *)
Definition IPv4Address : Type := string.

(** An [ipaddress.IPv4Network] object: its printed form and [hosts()]. *)
Record IPv4Network : Type := {
  network_str : string;
  network_hosts : list IPv4Address
}.

Inductive launch_error : Type :=
  | NoSuchFile        (* the executable is not on PATH *)
  | NotPermitted.     (* the executable cannot be run *)

(** What [Popen.communicate] hands over for a child whose output is
    captured in text mode, once the child has finished. The bytes written
    are decoded with the locale encoding. When they cannot be decoded, the
    POSIX implementation raises [UnicodeDecodeError] out of [communicate]
    ([Undecodable]); the Windows implementation decodes in a reader thread,
    which then dies, and hands over [None] for that stream. *)
Inductive captured_output : Type :=
  | Text (out err : option string)
  | Undecodable.

(** How a child process behaves when it is started. [duration] is the
    time until the child has finished and its output is read; [None] is a
    child that never finishes by itself. [reap] is the time it takes to
    kill the child and wait for it once the deadline has passed. Times are
    in milliseconds. *)
Record process : Type := {
  launch : option launch_error;
  duration : option N;
  reap : N;
  returncode : Z;
  captured : captured_output
}.

Record CompletedProcess : Type := {
  cp_returncode : Z;
  cp_stdout : option string;
  cp_stderr : option string
}.

(** [str(x)] for a value that is a string or [None]. *)
Definition str_opt (o : option string) : string := default "None" o.

(** Everything the script reads from its environment at one moment. *)
Record world : Type := {
  os_name : string;
  spawn : list string -> process;
  netifaces_interfaces : list string;
  netifaces_ifaddresses : string -> result (gmap Z (list (gmap string string)));
  ipaddress_IPv4Network : string -> result IPv4Network;
  thread_name : nat -> string
}.

Definition AF_INET : Z := 2.

(** [subprocess.run(command, ..., check=check, timeout=timeout)]: the
    result and the time spent in the call. [text] says whether the call
    captures the output in text mode ([capture_output=True, text=True]);
    otherwise both streams go to [DEVNULL] and the result holds [None] for
    them. A child still running at the deadline is killed and waited for,
    and then [TimeoutExpired] is raised: the call returns after the
    deadline. The output is decoded before the exit status is looked at. *)
Definition subprocess_run (w : world) (command : list string)
    (text check : bool) (timeout : N) : result CompletedProcess * N :=
  let p := spawn w command in
  match launch p with
  | Some NoSuchFile => (Raise FileNotFoundError, 0%N)
  | Some NotPermitted => (Raise PermissionError, 0%N)
  | None =>
      match duration p with
      | Some d =>
          if (d <=? timeout)%N then
            match (if text then captured p else Text None None) with
            | Undecodable => (Raise UnicodeDecodeError, d)
            | Text out err =>
                (if check && negb (returncode p =? 0)%Z
                 then Raise (CalledProcessError (returncode p) err)
                 else Return {| cp_returncode := returncode p;
                                cp_stdout := out;
                                cp_stderr := err |}, d)
            end
          else (Raise TimeoutExpired, (timeout + reap p)%N)
      | None => (Raise TimeoutExpired, (timeout + reap p)%N)
      end
  end.

(** ** Module constants *)

Definition NUM_THREADS : nat := 50.
Definition ADB_PORT : Z := 5555.

(** ** get_local_network_info *)

Definition truthy (o : option string) : bool :=
  match o with
  | Some s => negb (String.eqb s EmptyString)
  | None => false
  end.

(** The test of line 37 on one link dictionary whose ['addr'] is [ip]. *)
Definition usable (ip : string) (netmask : option string) : bool :=
  negb (String.eqb ip "127.0.0.1") && truthy netmask.

(** The inner [for link in addresses[AF_INET]] loop. [Return None] means the
    loop ended without returning from the function. *)
Fixpoint scan_links (w : world) (links : list (gmap string string))
    : result (option IPv4Network) :=
  match links with
  | [] => Return None
  | link :: rest =>
      match link !! "addr" with
      | None => Raise (KeyError "addr")
      | Some ip_address =>
          let netmask := link !! "netmask" in
          if usable ip_address netmask then
            match ipaddress_IPv4Network w
                    (ip_address ++ "/" ++ default EmptyString netmask) with
            | Return network => Return (Some network)
            | Raise e => Raise e
            end
          else scan_links w rest
      end
  end.

(** The outer [for iface in interfaces] loop. *)
Fixpoint scan_interfaces (w : world) (ifaces : list string)
    : result (option IPv4Network) :=
  match ifaces with
  | [] => Return None
  | iface :: rest =>
      match netifaces_ifaddresses w iface with
      | Raise e => Raise e
      | Return addresses =>
          match addresses !! AF_INET with
          | None => scan_interfaces w rest
          | Some links =>
              match scan_links w links with
              | Return None => scan_interfaces w rest
              | r => r
              end
          end
      end
  end.

(** [get_local_network_info()]: the network or [None], and what was printed. *)
Definition get_local_network_info (w : world) : option IPv4Network * list string :=
  match scan_interfaces w (netifaces_interfaces w) with
  | Return (Some network) =>
      (Some network, ["Discovered local network: " ++ network_str network])
  | Return None => (None, [])
  | Raise e => (None, ["Error discovering network info: " ++ exn_str e])
  end.

(** ** ping_host *)

Definition ping_command (w : world) (ip_address : IPv4Address) : list string :=
  let param := if String.eqb (os_name w) "nt" then "-n 1" else "-c 1" in
  ["ping"; param; ip_address].

Definition ping_host (w : world) (ip_address : IPv4Address) : outcome bool :=
  let '(r, t) := subprocess_run w (ping_command w ip_address) false true 1000%N in
  match r with
  | Return _ => Outcome (Return true) [] t
  | Raise (CalledProcessError _ _) => Outcome (Return false) [] t
  | Raise TimeoutExpired => Outcome (Return false) [] t
  | Raise e => Outcome (Raise e) [] t
  end.

(** ** attempt_adb_connect *)

Definition adb_address (ip_address : IPv4Address) : string :=
  ip_address ++ ":" ++ str_Z ADB_PORT.

Definition adb_command (ip_address : IPv4Address) : list string :=
  ["adb"; "connect"; adb_address ip_address].

Definition attempt_adb_connect (w : world) (ip_address : IPv4Address) : outcome bool :=
  let line0 := "Attempting to connect to " ++ adb_address ip_address ++ " via ADB..." in
  let '(r, t) := subprocess_run w (adb_command ip_address) true true 5000%N in
  match r with
  | Return result =>
      let line1 := "ADB connection attempt to " ++ adb_address ip_address
                   ++ ":" ++ newline ++ str_opt (cp_stdout result) in
      match cp_stdout result with
      | Some out =>
          if contains "connected to" out then
            Outcome (Return true)
              [line0; line1; "Successfully connected to " ++ ip_address ++ " via ADB!"] t
          else Outcome (Return false) [line0; line1] t
      | None => Outcome (Raise TypeError) [line0; line1] t
      end
  | Raise FileNotFoundError =>
      Outcome (Return false)
        [line0; "Error: 'adb' command not found. Please install the Android SDK Platform-Tools."] t
  | Raise TimeoutExpired =>
      Outcome (Return false)
        [line0; "Timeout: ADB connection to " ++ adb_address ip_address ++ " timed out."] t
  | Raise (CalledProcessError _ err) =>
      Outcome (Return false)
        [line0; "Error: Failed to connect to " ++ adb_address ip_address
                ++ ". Check the device's wireless debugging status."; str_opt err] t
  | Raise e => Outcome (Raise e) [line0] t
  end.

(** ** The thread pool: shared state and interleaving semantics *)

(** Where a worker thread stands in [worker]. *)
Inductive worker_pc : Type :=
  | WLoop                           (* about to test [stop_event.is_set()] *)
  | WGet                            (* about to call [queue.get(timeout=1)] *)
  | WPing (ip : IPv4Address)        (* about to call [ping_host] *)
  | WConnect (ip : IPv4Address)     (* about to call [attempt_adb_connect] *)
  | WSet (ip : IPv4Address)         (* about to call [stop_event.set()] *)
  | WTaskDone (ip : IPv4Address)    (* about to call [queue.task_done()] *)
  | WReturned                       (* the loop condition failed *)
  | WCrashed (e : exn).             (* an exception left the function *)

(** Where the main thread stands in [main]. *)
Inductive main_pc_t : Type :=
  | MStart                          (* about to discover the network *)
  | MSpawn (k : nat)                (* [k] workers started so far *)
  | MWait                           (* about to test [stop_event.is_set()] *)
  | MEmpty                          (* about to test [ip_queue.empty()] *)
  | MSleep                          (* about to [time.sleep(1)] *)
  | MJoin (i : nat)                 (* about to join thread [i] *)
  | MReturned.                      (* [main] has returned *)

(** What the threads did to the shared objects and the collaborators. *)
Inductive event : Type :=
  | EvGet (t : nat) (ip : IPv4Address)
  | EvProbe (t : nat) (ip : IPv4Address) (r : result bool)
  | EvConnect (t : nat) (ip : IPv4Address) (r : result bool)
  | EvSet (t : nat) (ip : IPv4Address).

Record state : Type := State {
  stop_event : bool;                (* the module-level [threading.Event] *)
  ip_queue : list IPv4Address;      (* pending items of the [queue.Queue] *)
  unfinished_tasks : nat;           (* the queue's task counter *)
  threads : list worker_pc;         (* the started workers, in start order *)
  main_pc : main_pc_t;
  trace : list event;               (* oldest event first *)
  console : list string             (* printed lines, oldest first *)
}.

Definition is_alive (pc : worker_pc) : bool :=
  match pc with
  | WReturned | WCrashed _ => false
  | _ => true
  end.

Inductive thread_id : Type :=
  | Main
  | Worker (t : nat).

(** One scheduling decision: which thread runs its next statement, and what
    the outside world looks like while it does. *)
Record action : Type := Act {
  actor : thread_id;
  env : world
}.

Definition set_pc (t : nat) (pc : worker_pc) (s : state) : state :=
  State (stop_event s) (ip_queue s) (unfinished_tasks s)
        (<[t := pc]> (threads s)) (main_pc s) (trace s) (console s).

Definition set_main (pc : main_pc_t) (s : state) : state :=
  State (stop_event s) (ip_queue s) (unfinished_tasks s)
        (threads s) pc (trace s) (console s).

Definition log (e : event) (s : state) : state :=
  State (stop_event s) (ip_queue s) (unfinished_tasks s)
        (threads s) (main_pc s) (trace s ++ [e]) (console s).

Definition print (lines : list string) (s : state) : state :=
  State (stop_event s) (ip_queue s) (unfinished_tasks s)
        (threads s) (main_pc s) (trace s) (console s ++ lines).

(** In [worker] the parameter [queue] shadows the module [queue], so the
    clause [except queue.Empty] looks up [Empty] on the [Queue] object. Any
    exception raised in the [try] body therefore ends in an
    [AttributeError] that leaves the function: the thread dies. *)
Definition worker_except (e : exn) : worker_pc := WCrashed AttributeError.

(** One statement of worker [t]. [None]: the thread cannot run (it was not
    started, or it is dead). *)
Definition worker_step (w : world) (t : nat) (s : state) : option state :=
  match threads s !! t with
  | None => None
  | Some pc =>
      match pc with
      | WLoop =>
          if stop_event s then Some (set_pc t WReturned s)
          else Some (set_pc t WGet s)
      | WGet =>
          match ip_queue s with
          | [] => Some (set_pc t (worker_except QueueEmpty) s)
          | ip :: rest =>
              Some (set_pc t (WPing ip)
                     (print ["Worker " ++ thread_name w t ++ " checking " ++ ip ++ "..."]
                       (log (EvGet t ip)
                         (State (stop_event s) rest (unfinished_tasks s)
                                (threads s) (main_pc s) (trace s) (console s)))))
          end
      | WPing ip =>
          let o := ping_host w ip in
          let s1 := print (printed o) (log (EvProbe t ip (value o)) s) in
          match value o with
          | Return true =>
              Some (set_pc t (WConnect ip) (print ["Host " ++ ip ++ " is online."] s1))
          | Return false => Some (set_pc t (WTaskDone ip) s1)
          | Raise e => Some (set_pc t (worker_except e) s1)
          end
      | WConnect ip =>
          let o := attempt_adb_connect w ip in
          let s1 := print (printed o) (log (EvConnect t ip (value o)) s) in
          match value o with
          | Return true => Some (set_pc t (WSet ip) s1)
          | Return false => Some (set_pc t (WTaskDone ip) s1)
          | Raise e => Some (set_pc t (worker_except e) s1)
          end
      | WSet ip =>
          Some (set_pc t (WTaskDone ip)
                 (log (EvSet t ip)
                   (State true (ip_queue s) (unfinished_tasks s)
                          (threads s) (main_pc s) (trace s) (console s))))
      | WTaskDone ip =>
          match unfinished_tasks s with
          | O => Some (set_pc t (worker_except (ValueError "task_done() called too many times")) s)
          | S n =>
              Some (set_pc t WLoop
                     (State (stop_event s) (ip_queue s) n
                            (threads s) (main_pc s) (trace s) (console s)))
          end
      | WReturned => None
      | WCrashed _ => None
      end
  end.

(** One statement of [main], for a pool of [W] workers. [None]: [main] has
    returned, or it is blocked in [thread.join()]. *)
Definition main_step (W : nat) (w : world) (s : state) : option state :=
  match main_pc s with
  | MStart =>
      let '(network, lines) := get_local_network_info w in
      match network with
      | None =>
          Some (set_main MReturned
                 (print (lines ++ ["Could not determine local network. Exiting."]) s))
      | Some net =>
          let hosts := network_hosts net in
          Some (print (lines ++
                        ["Scanning " ++ str_nat (length hosts) ++ " hosts on the network...";
                         "This may take a while. Press Ctrl+C to stop."])
                 (State (stop_event s) hosts (length hosts)
                        (threads s) (MSpawn 0) (trace s) (console s)))
      end
  | MSpawn k =>
      if (k <? W)%nat then
        Some (State (stop_event s) (ip_queue s) (unfinished_tasks s)
                    (threads s ++ [WLoop]) (MSpawn (S k)) (trace s) (console s))
      else Some (set_main MWait s)
  | MWait =>
      if stop_event s then Some (set_main (MJoin 0) s)
      else Some (set_main MEmpty s)
  | MEmpty =>
      match ip_queue s with
      | [] => Some (set_main (MJoin 0) s)
      | _ :: _ => Some (set_main MSleep s)
      end
  | MSleep => Some (set_main MWait s)
  | MJoin i =>
      match threads s !! i with
      | Some pc => if is_alive pc then None else Some (set_main (MJoin (S i)) s)
      | None =>
          Some (set_main MReturned
                 (print [newline ++ "Network scan complete. Script exiting."] s))
      end
  | MReturned => None
  end.

Definition step (W : nat) (a : action) (s : state) : option state :=
  match actor a with
  | Main => main_step W (env a) s
  | Worker t => worker_step (env a) t s
  end.

(** Running a schedule; [None] when it asks a thread to run that cannot. *)
Fixpoint exec (W : nat) (acts : list action) (s : state) : option state :=
  match acts with
  | [] => Some s
  | a :: rest =>
      match step W a s with
      | Some s' => exec W rest s'
      | None => None
      end
  end.

(** The interpreter starts [main] with the module globals freshly set, or,
    for a later call of [main] in the same process, with the flag as the
    earlier call left it. *)
Definition process_start (stop : bool) : state :=
  State stop [] 0 [] MStart [] [].

(** The state right after [main] filled the queue with [hosts]. *)
Definition populated (stop : bool) (hosts : list IPv4Address) (out : list string) : state :=
  State stop hosts (length hosts) [] (MSpawn 0) [] out.

(** The exit status of the process once [main] has returned: the script has
    no [sys.exit] and nothing is raised out of [main], so the interpreter
    ends with status 0. *)
Definition exit_status (s : state) : option Z :=
  match main_pc s with
  | MReturned => Some 0%Z
  | _ => None
  end.

(** ** Observations on a trace *)

Definition probed (tr : list event) : list IPv4Address :=
  omap (fun e => match e with EvProbe _ ip _ => Some ip | _ => None end) tr.

Definition dequeued (tr : list event) : list IPv4Address :=
  omap (fun e => match e with EvGet _ ip => Some ip | _ => None end) tr.

Definition connects (tr : list event) : list IPv4Address :=
  omap (fun e => match e with EvConnect _ ip _ => Some ip | _ => None end) tr.

(** The addresses for which [attempt_adb_connect] returned [True]. *)
Definition successes (tr : list event) : list IPv4Address :=
  omap (fun e => match e with EvConnect _ ip (Return true) => Some ip | _ => None end) tr.

Definition setters (tr : list event) : list IPv4Address :=
  omap (fun e => match e with EvSet _ ip => Some ip | _ => None end) tr.

(** ** Discovery: which links the loops pass over *)

(** A link dictionary the inner loop passes over: it has an ['addr'], and
    the test of line 37 fails on it. *)
Definition skipped_link (link : gmap string string) : Prop :=
  exists ip, link !! "addr" = Some ip /\ usable ip (link !! "netmask") = false.

(** An interface the outer loop passes over without returning or raising. *)
Definition skipped_interface (w : world) (iface : string) : Prop :=
  exists addresses,
    netifaces_ifaddresses w iface = Return addresses /\
    (addresses !! AF_INET = None \/
     exists links, addresses !! AF_INET = Some links /\ Forall skipped_link links).

(** An interface that carries an IPv4 address other than 127.0.0.1 together
    with a non-empty netmask. *)
Definition carries_usable (w : world) (iface : string) : Prop :=
  exists addresses links link ip mask,
    netifaces_ifaddresses w iface = Return addresses /\
    addresses !! AF_INET = Some links /\
    In link links /\
    link !! "addr" = Some ip /\ ip <> "127.0.0.1" /\
    link !! "netmask" = Some mask /\ mask <> EmptyString.

(** ** A small laboratory world for concrete runs *)

Definition lab_link (ip mask : string) : gmap string string :=
  <["addr" := ip]> (<["netmask" := mask]> ∅).

Definition lab_network : IPv4Network :=
  {| network_str := "192.168.1.4/30";
     network_hosts := ["192.168.1.5"; "192.168.1.6"] |}.

Definition exits (code : Z) (out : string) : process :=
  {| launch := None; duration := Some 20%N; reap := 0; returncode := code;
     captured := Text (Some out) (Some EmptyString) |}.

Definition missing : process :=
  {| launch := Some NoSuchFile; duration := None; reap := 0; returncode := 0;
     captured := Text (Some EmptyString) (Some EmptyString) |}.


(** A machine with [lo] and [eth0], where every host answers [ping] and
    accepts [adb connect]. *)
Definition lab_world : world :=
  {| os_name := "posix";
     spawn := fun command =>
       match command with
       | "ping" :: _ => exits 0 EmptyString
       | _ => exits 0 "connected to device"
       end;
     netifaces_interfaces := ["lo"; "eth0"];
     netifaces_ifaddresses := fun iface =>
       if String.eqb iface "lo"
       then Return (<[AF_INET := [lab_link "127.0.0.1" "255.0.0.0"]]> ∅)
       else Return (<[AF_INET := [lab_link "192.168.1.5" "255.255.255.252"]]> ∅);
     ipaddress_IPv4Network := fun _ => Return lab_network;
     thread_name := fun t => "Thread-" ++ str_nat (S t) |}.

(** The same machine when no host answers [ping]. *)
Definition silent_world : world :=
  {| os_name := os_name lab_world;
     spawn := fun _ => exits 1 EmptyString;
     netifaces_interfaces := netifaces_interfaces lab_world;
     netifaces_ifaddresses := netifaces_ifaddresses lab_world;
     ipaddress_IPv4Network := ipaddress_IPv4Network lab_world;
     thread_name := thread_name lab_world |}.

(** A machine with no [ping] and no [adb] installed. *)
Definition bare_world : world :=
  {| os_name := os_name lab_world;
     spawn := fun _ => missing;
     netifaces_interfaces := netifaces_interfaces lab_world;
     netifaces_ifaddresses := netifaces_ifaddresses lab_world;
     ipaddress_IPv4Network := ipaddress_IPv4Network lab_world;
     thread_name := thread_name lab_world |}.

(** A machine whose only interface is the loopback. *)
Definition offline_world : world :=
  {| os_name := os_name lab_world;
     spawn := spawn lab_world;
     netifaces_interfaces := ["lo"];
     netifaces_ifaddresses := netifaces_ifaddresses lab_world;
     ipaddress_IPv4Network := ipaddress_IPv4Network lab_world;
     thread_name := thread_name lab_world |}.

Definition by_main (w : world) : action := Act Main w.
Definition by_worker (w : world) (t : nat) : action := Act (Worker t) w.

(** ** Counting over the thread table *)

(** The sum of [f] over all started workers. *)
Definition total (f : worker_pc -> nat) (l : list worker_pc) : nat :=
  foldr (fun pc n => (f pc + n)%nat) 0%nat l.

(** The worker took an item from the queue and has not yet called
    [task_done] for it. *)
Definition holds_item (pc : worker_pc) : nat :=
  match pc with
  | WPing _ | WConnect _ | WSet _ | WTaskDone _ => 1
  | _ => 0
  end.

(** The worker passed the test at the loop head and has not yet called
    [attempt_adb_connect] in this iteration. *)
Definition in_flight (pc : worker_pc) : nat :=
  match pc with
  | WGet | WPing _ | WConnect _ => 1
  | _ => 0
  end.

(** Whether the worker can still come to a successful connect, given the
    flag: with the flag set only a worker past the loop head can. *)
Definition credit (stop : bool) (pc : worker_pc) : nat :=
  if stop then in_flight pc
  else match pc with
       | WLoop | WGet | WPing _ | WConnect _ | WTaskDone _ => 1
       | _ => 0
       end.

(** The workers that [main] has still to start. *)
Definition unspawned (W : nat) (pc : main_pc_t) : nat :=
  match pc with
  | MStart => W
  | MSpawn k => W - k
  | _ => 0
  end.

(** The item a worker has dequeued and not yet probed. *)
Definition probe_item (pc : worker_pc) : list IPv4Address :=
  match pc with
  | WPing ip => [ip]
  | _ => []
  end.

Definition pending (l : list worker_pc) : list IPv4Address :=
  flat_map probe_item l.

(** The connect calls of one worker. *)
Definition connects_by (t : nat) (tr : list event) : list IPv4Address :=
  omap (fun e => match e with
                 | EvConnect t' ip _ => if Nat.eqb t t' then Some ip else None
                 | _ => None
                 end) tr.

(** [in_flight] of worker [t], 0 when [t] was not started. *)
Definition in_flight_at (t : nat) (l : list worker_pc) : nat :=
  from_option in_flight 0%nat (l !! t).

(** The line [attempt_adb_connect] prints on success. *)
Definition success_line (ip : IPv4Address) : string :=
  "Successfully connected to " ++ ip ++ " via ADB!".

(** [s] can be reached from [s0] by some schedule. *)
Definition reachable (W : nat) (s0 s : state) : Prop :=
  exists acts, exec W acts s0 = Some s.

(** Every probe so far returned [False]. *)
Definition all_unreachable (tr : list event) : Prop :=
  forall t ip r, In (EvProbe t ip r) tr -> r = Return false.

(** ** Running the pool to its end *)

(** How many statements a worker has left before it must come back to the
    queue, and how many [main] has left, leaving aside the waiting loop. *)
Definition worker_rank (pc : worker_pc) : nat :=
  match pc with
  | WReturned | WCrashed _ => 0
  | WGet => 1
  | WLoop => 2
  | WTaskDone _ => 3
  | WSet _ => 4
  | WConnect _ => 5
  | WPing _ => 6
  end.

Definition main_rank (W : nat) (pc : main_pc_t) : nat :=
  match pc with
  | MStart => 4 * W + 7
  | MSpawn k => 3 * (W - k) + W + 6
  | MSleep => W + 5
  | MWait => W + 4
  | MEmpty => W + 3
  | MJoin i => (W - i) + 2
  | MReturned => 0
  end.

Definition fuel_bound (W : nat) (s : state) : nat :=
  main_rank W (main_pc s) + total worker_rank (threads s) + 6 * length (ip_queue s).

Fixpoint first_alive (l : list worker_pc) : option nat :=
  match l with
  | [] => None
  | pc :: rest => if is_alive pc then Some 0%nat else S <$> first_alive rest
  end.

(** A scheduler: the first live worker runs; [main] runs when none is. *)
Definition drive (w : world) (s : state) : action :=
  match first_alive (threads s) with
  | Some t => Act (Worker t) w
  | None => Act Main w
  end.

Fixpoint drive_run (W : nat) (w : world) (fuel : nat) (s : state) : state :=
  match fuel with
  | O => s
  | S n =>
      match step W (drive w s) s with
      | Some s' => drive_run W w n s'
      | None => s
      end
  end.

(** ** Concrete schedules *)

Definition host1 : IPv4Address := "192.168.1.5".
Definition host2 : IPv4Address := "192.168.1.6".

(** Two workers each take a host; worker 0 probes, connects and sets the
    flag while worker 1 has not yet probed. *)
Definition race_until_set : list action :=
  [by_main lab_world; by_main lab_world;
   by_worker lab_world 0; by_worker lab_world 0;
   by_worker lab_world 1; by_worker lab_world 1;
   by_worker lab_world 0; by_worker lab_world 0; by_worker lab_world 0].

(** Worker 1 then probes and connects. *)
Definition race_after_set : list action :=
  [by_worker lab_world 1; by_worker lab_world 1].

(** Both workers finish and [main] joins them. *)
Definition race_finish : list action :=
  [by_worker lab_world 1; by_worker lab_world 1;
   by_worker lab_world 0; by_worker lab_world 0; by_worker lab_world 1;
   by_main lab_world; by_main lab_world; by_main lab_world;
   by_main lab_world; by_main lab_world].

(** A scan in which no host answers: worker 0 drains the queue. *)
Definition silent_scan : list action :=
  [by_main silent_world; by_main silent_world; by_main silent_world] ++
  repeat (by_worker silent_world 0) 10 ++
  repeat (by_worker silent_world 1) 2 ++
  repeat (by_main silent_world) 5.

(** A whole call of [main], discovery included, with the race above. *)
Definition first_call : list action :=
  by_main lab_world :: race_until_set ++ race_after_set ++ race_finish.

(** A later call of [main]: both workers only test the flag. *)
Definition second_call : list action :=
  [by_main lab_world; by_main lab_world; by_main lab_world;
   by_worker lab_world 0; by_worker lab_world 1].

Definition after (W : nat) (acts : list action) (s : state) : state :=
  default s (exec W acts s).

(** ** Further measures and worlds *)

(** The worker statements still to come, whatever the schedule: the ranks
    of the started workers, six statements per queued host, and two (the
    loop test and the failing [get]) per worker not yet started. *)
Definition work_left (W : nat) (s : state) : nat :=
  total worker_rank (threads s) + 6 * length (ip_queue s)
  + 2 * unspawned W (main_pc s).

Definition is_worker_action (a : action) : bool :=
  match actor a with
  | Worker _ => true
  | Main => false
  end.

(** The number of worker statements in a schedule. *)
Definition worker_actions (acts : list action) : nat :=
  length (filter (fun a => is_worker_action a = true) acts).

(** Every probe so far raised. *)
Definition all_raised (tr : list event) : Prop :=
  forall t ip r, In (EvProbe t ip r) tr -> exists e, r = Raise e.

(** The worker can still come to the queue. *)
Definition may_dequeue (pc : worker_pc) : nat :=
  match pc with
  | WLoop | WGet | WConnect _ | WSet _ | WTaskDone _ => 1
  | WPing _ | WReturned | WCrashed _ => 0
  end.

(** The addresses whose probe or connect call raised. *)
Definition raised (tr : list event) : list IPv4Address :=
  omap (fun e => match e with
                 | EvProbe _ ip (Raise _) | EvConnect _ ip (Raise _) => Some ip
                 | _ => None
                 end) tr.

(** A machine on which [ping] and [adb] exist but may not be run. *)
Definition forbidden_world : world :=
  {| os_name := os_name lab_world;
     spawn := fun _ => {| launch := Some NotPermitted; duration := None;
                          reap := 0; returncode := 0;
                          captured := Text (Some EmptyString) (Some EmptyString) |};
     netifaces_interfaces := netifaces_interfaces lab_world;
     netifaces_ifaddresses := netifaces_ifaddresses lab_world;
     ipaddress_IPv4Network := ipaddress_IPv4Network lab_world;
     thread_name := thread_name lab_world |}.

(** A machine whose [eth0] cannot be queried. *)
Definition broken_world : world :=
  {| os_name := os_name lab_world;
     spawn := spawn lab_world;
     netifaces_interfaces := ["lo"; "eth0"; "wlan0"];
     netifaces_ifaddresses := fun iface =>
       if String.eqb iface "eth0"
       then Raise (ValueError "You must specify a valid interface name.")
       else netifaces_ifaddresses lab_world iface;
     ipaddress_IPv4Network := ipaddress_IPv4Network lab_world;
     thread_name := thread_name lab_world |}.

(** A machine whose [eth0] reports a netmask that [IPv4Network] rejects. *)
Definition odd_mask_world : world :=
  {| os_name := os_name lab_world;
     spawn := spawn lab_world;
     netifaces_interfaces := ["lo"; "eth0"; "wlan0"];
     netifaces_ifaddresses := netifaces_ifaddresses lab_world;
     ipaddress_IPv4Network := fun _ => Raise (ValueError "netmask is not valid");
     thread_name := thread_name lab_world |}.

(** A machine whose [eth0] has a link without an address. *)
Definition no_addr_world : world :=
  {| os_name := os_name lab_world;
     spawn := spawn lab_world;
     netifaces_interfaces := ["lo"; "eth0"; "wlan0"];
     netifaces_ifaddresses := fun iface =>
       if String.eqb iface "eth0"
       then Return (<[AF_INET := [<["netmask" := "255.255.255.0"]> ∅]]> ∅)
       else netifaces_ifaddresses lab_world iface;
     ipaddress_IPv4Network := ipaddress_IPv4Network lab_world;
     thread_name := thread_name lab_world |}.

(** With no [ping] installed, both workers die on their first host. *)
Definition bare_scan : list action :=
  [by_main bare_world; by_main bare_world; by_main bare_world] ++
  repeat (by_worker bare_world 0) 3 ++
  repeat (by_worker bare_world 1) 3 ++
  repeat (by_main bare_world) 7.

Definition host3 : IPv4Address := "192.168.1.7".

(** ** Fuel for a scan on a machine whose tools do not raise *)

(** The statements [main] has left when every worker is dead; once the
    flag is set, the waiting loop is left at its next test. *)
Definition main_rank_with_flag (W : nat) (stop : bool) (pc : main_pc_t) : nat :=
  match pc with
  | MStart => 4 * W + 12
  | MSpawn k => 3 * (W - k) + W + 10
  | MSleep => if stop then W + 4 else W + 9
  | MWait => if stop then W + 3 else W + 8
  | MEmpty => if stop then W + 5 else W + 7
  | MJoin i => (W - i) + 2
  | MReturned => 0
  end.

Definition scan_fuel (W : nat) (s : state) : nat :=
  main_rank_with_flag W (stop_event s) (main_pc s)
  + total worker_rank (threads s) + 6 * length (ip_queue s).

(** On this machine neither [ping_host] nor [attempt_adb_connect] raises. *)
Definition tools_do_not_raise (w : world) : Prop :=
  forall ip, (exists b, value (ping_host w ip) = Return b) /\
             (exists b, value (attempt_adb_connect w ip) = Return b).

(** ** Loopback as the specification means it *)

(** The specification's and the docstring's "loopback": an address of
    127.0.0.0/8, that is, dotted text that begins with "127.". The code
    tests for the one text '127.0.0.1' instead (see [usable]). *)
Definition spec_loopback (ip : string) : bool := String.prefix "127." ip.

(** ** The last line of a scan *)

(** What [main] prints before it returns from a scan. *)
Definition scan_complete_line : string :=
  newline ++ "Network scan complete. Script exiting.".

(** ** More machines *)


(** A POSIX machine on which [adb] fails to connect, exits with status 1,
    and writes bytes that are not text in the locale encoding. *)
Definition garbled_world : world :=
  {| os_name := os_name lab_world;
     spawn := fun _ => {| launch := None; duration := Some 20%N; reap := 0;
                          returncode := 1; captured := Undecodable |};
     netifaces_interfaces := netifaces_interfaces lab_world;
     netifaces_ifaddresses := netifaces_ifaddresses lab_world;
     ipaddress_IPv4Network := ipaddress_IPv4Network lab_world;
     thread_name := thread_name lab_world |}.

(** * Properties of the sequential helpers *)

Local Open Scope list_scope.

Section Helpers.

Variable w : world.

Lemma subprocess_run_missing command text check timeout :
  launch (spawn w command) = Some NoSuchFile ->
  subprocess_run w command text check timeout = (Raise FileNotFoundError, 0%N).
Proof. unfold subprocess_run. intros ->. reflexivity. Qed.


Lemma subprocess_run_timeout command text check timeout :
  launch (spawn w command) = None ->
  (duration (spawn w command) = None \/
   exists d, duration (spawn w command) = Some d /\ (timeout < d)%N) ->
  subprocess_run w command text check timeout =
    (Raise TimeoutExpired, (timeout + reap (spawn w command))%N).
Proof.
  unfold subprocess_run. intros -> [-> | (d & -> & Hd)]; [reflexivity|].
  destruct (N.leb_spec d timeout); [lia | reflexivity].
Qed.


(** A child that finishes in time, with its output captured as text. *)
Lemma subprocess_run_text command timeout d out err :
  launch (spawn w command) = None ->
  duration (spawn w command) = Some d -> (d <= timeout)%N ->
  captured (spawn w command) = Text out err ->
  subprocess_run w command true true timeout =
    (if negb (returncode (spawn w command) =? 0)%Z
     then Raise (CalledProcessError (returncode (spawn w command)) err)
     else Return {| cp_returncode := returncode (spawn w command);
                    cp_stdout := out;
                    cp_stderr := err |}, d).
Proof.
  unfold subprocess_run. intros -> -> Hd ->.
  destruct (N.leb_spec d timeout); [reflexivity | lia].
Qed.

End Helpers.

(** C5 (as the code has it). For every address, when the [adb] tool is
    missing, when the call times out, and when the connection fails (adb
    exits with a non-zero status, or its output, read as text, is without
    "connected to"), [attempt_adb_connect] raises nothing and returns
    [False]; what went wrong shows only in the printed lines (at least
    one line beyond the "Attempting" line). Other conditions are not
    covered: they can raise. *)
Theorem attempt_adb_connect_failure_is_false (w : world) (ip : IPv4Address) :
  let p := spawn w (adb_command ip) in
  (launch p = Some NoSuchFile \/
   (launch p = None /\
    (duration p = None \/ exists d, duration p = Some d /\ (5000 < d)%N)) \/
   (launch p = None /\
    exists d out err, duration p = Some d /\ (d <= 5000)%N /\
      captured p = Text out err /\
      (returncode p <> 0%Z \/
       exists o, out = Some o /\ contains "connected to" o = false))) ->
  value (attempt_adb_connect w ip) = Return false /\
  (2 <= length (printed (attempt_adb_connect w ip)))%nat.
Proof.
  intros p [Hm | [[Hl Ht] | (Hl & d & out & err & Hd & Hle & Hc & Hf)]]; subst p;
    unfold attempt_adb_connect.
  - rewrite (subprocess_run_missing w _ _ _ _ Hm). simpl. split; [reflexivity | lia].
  - rewrite (subprocess_run_timeout w _ _ _ _ Hl Ht). simpl. split; [reflexivity | lia].
  - rewrite (subprocess_run_text w _ _ _ _ _ Hl Hd Hle Hc).
    destruct (Z.eqb_spec (returncode (spawn w (adb_command ip))) 0) as [He | He]; simpl.
    + destruct Hf as [Hf | (o & -> & Hf)]; [contradiction|]. rewrite Hf. simpl.
      split; [reflexivity | lia].
    + split; [reflexivity | lia].
Qed.

Lemma attempt_adb_connect_failure_is_false_witness :
  value (attempt_adb_connect bare_world "192.168.1.5") = Return false /\
  (2 <= length (printed (attempt_adb_connect bare_world "192.168.1.5")))%nat.
Proof.
  apply (attempt_adb_connect_failure_is_false bare_world "192.168.1.5").
  left. reflexivity.
Defined.

(** C5, the claim as stated fails: [attempt_adb_connect] does raise to
    its caller. An [adb] that may not be executed gives [PermissionError];
    and a connection failure whose output cannot be decoded (exit status
    1, bytes that are not text) gives [UnicodeDecodeError], not [False]. *)
Lemma attempt_adb_connect_can_raise :
  value (attempt_adb_connect forbidden_world host1) = Raise PermissionError /\
  returncode (spawn garbled_world (adb_command host1)) = 1%Z /\
  value (attempt_adb_connect garbled_world host1) = Raise UnicodeDecodeError /\
  ~ (exists b, value (attempt_adb_connect garbled_world host1) = Return b).
Proof.
  repeat split; try reflexivity. intros [b Hb]. discriminate Hb.
Qed.




(** C9. For every address, when starting [ping] fails because the binary
    is missing, [ping_host] lets the [FileNotFoundError] reach its caller,
    whereas [attempt_adb_connect] turns the same condition on [adb] into
    the value [False]. *)
Theorem ping_host_propagates_missing_tool (w : world) (ip : IPv4Address) :
  (launch (spawn w (ping_command w ip)) = Some NoSuchFile ->
   value (ping_host w ip) = Raise FileNotFoundError) /\
  (launch (spawn w (adb_command ip)) = Some NoSuchFile ->
   value (attempt_adb_connect w ip) = Return false).
Proof.
  split; intros Hm.
  - unfold ping_host. rewrite (subprocess_run_missing w _ _ _ _ Hm). reflexivity.
  - unfold attempt_adb_connect. rewrite (subprocess_run_missing w _ _ _ _ Hm).
    reflexivity.
Qed.

Lemma ping_host_propagates_missing_tool_witness :
  value (ping_host bare_world "192.168.1.5") = Raise FileNotFoundError /\
  value (attempt_adb_connect bare_world "192.168.1.5") = Return false.
Proof.
  split; apply (ping_host_propagates_missing_tool bare_world "192.168.1.5");
    reflexivity.
Defined.

(** ** get_local_network_info *)

Section Discovery.

Variable w : world.

Lemma usable_true_iff ip netmask :
  usable ip netmask = true <->
  ip <> "127.0.0.1" /\ exists mask, netmask = Some mask /\ mask <> EmptyString.
Proof.
  unfold usable, truthy. rewrite andb_true_iff, negb_true_iff, String.eqb_neq.
  split.
  - intros [Hip Hm]. split; [exact Hip|].
    destruct netmask as [mask|]; [|discriminate].
    exists mask. split; [reflexivity|].
    apply String.eqb_neq. apply negb_true_iff. exact Hm.
  - intros [Hip (mask & -> & Hm)]. split; [exact Hip|].
    apply negb_true_iff. apply String.eqb_neq. exact Hm.
Qed.

Lemma scan_links_skipped links :
  Forall skipped_link links -> scan_links w links = Return None.
Proof.
  induction 1 as [| link rest (ip & Hip & Hu) _ IH]; simpl; [reflexivity|].
  rewrite Hip, Hu. exact IH.
Qed.

Lemma scan_links_first lpre link lpost ip mask :
  Forall skipped_link lpre ->
  link !! "addr" = Some ip -> ip <> "127.0.0.1" ->
  link !! "netmask" = Some mask -> mask <> EmptyString ->
  scan_links w (lpre ++ link :: lpost) =
    match ipaddress_IPv4Network w (ip ++ "/" ++ mask)%string with
    | Return network => Return (Some network)
    | Raise e => Raise e
    end.
Proof.
  intros Hpre Hip Hne Hm Hmne.
  induction Hpre as [| l rest (ip' & Hip' & Hu) _ IH]; simpl.
  - rewrite Hip, Hm.
    assert (usable ip (Some mask) = true) as ->; [|reflexivity].
    apply usable_true_iff. split; [exact Hne|]. exists mask. split; [reflexivity | exact Hmne].
  - rewrite Hip', Hu. exact IH.
Qed.

Lemma scan_links_found links network :
  scan_links w links = Return (Some network) ->
  exists link ip mask,
    In link links /\ link !! "addr" = Some ip /\ ip <> "127.0.0.1" /\
    link !! "netmask" = Some mask /\ mask <> EmptyString.
Proof.
  induction links as [| link rest IH]; simpl; [discriminate|].
  destruct (link !! "addr") as [ip|] eqn:Hip; [|discriminate].
  destruct (usable ip (link !! "netmask")) eqn:Hu.
  - intros _. apply usable_true_iff in Hu as [Hne (mask & Hm & Hmne)].
    exists link, ip, mask. repeat split; try assumption. left. reflexivity.
  - intros H. destruct (IH H) as (l & ip' & mask & Hin & Hrest).
    exists l, ip', mask. split; [right; exact Hin | exact Hrest].
Qed.

Lemma scan_interfaces_skipped pre rest :
  Forall (skipped_interface w) pre ->
  scan_interfaces w (pre ++ rest) = scan_interfaces w rest.
Proof.
  induction 1 as [| iface pre' (addresses & Ha & Hl) _ IH]; simpl; [reflexivity|].
  rewrite Ha. destruct Hl as [-> | (links & -> & Hall)]; [exact IH|].
  rewrite (scan_links_skipped _ Hall). exact IH.
Qed.

Lemma scan_interfaces_found ifaces network :
  scan_interfaces w ifaces = Return (Some network) ->
  exists iface, In iface ifaces /\ carries_usable w iface.
Proof.
  induction ifaces as [| iface rest IH]; simpl; [discriminate|].
  destruct (netifaces_ifaddresses w iface) as [addresses | e] eqn:Ha; [|discriminate].
  destruct (addresses !! AF_INET) as [links|] eqn:Hl.
  - destruct (scan_links w links) as [[n|] | e] eqn:Hs.
    + intros _. destruct (scan_links_found _ _ Hs) as (link & ip & mask & Hin & Hrest).
      exists iface. split; [left; reflexivity|].
      exists addresses, links, link, ip, mask. repeat split; tauto.
    + intros H. destruct (IH H) as (i & Hin & Hc). exists i. split; [right|]; assumption.
    + discriminate.
  - intros H. destruct (IH H) as (i & Hin & Hc). exists i. split; [right|]; assumption.
Qed.

Lemma scan_links_skip lpre rest :
  Forall skipped_link lpre -> scan_links w (lpre ++ rest) = scan_links w rest.
Proof.
  induction 1 as [| l lpre (ip & Hip & Hu) _ IH]; simpl; [reflexivity|].
  rewrite Hip, Hu. exact IH.
Qed.

(** An address that is not loopback as the specification means it is not
    the text the code tests for. *)
Lemma spec_loopback_literal ip : spec_loopback ip = false -> ip <> "127.0.0.1"%string.
Proof. intros H ->. vm_compute in H. discriminate H. Qed.

End Discovery.

(** C7 (as the code has it). [get_local_network_info] goes through the
    interfaces in order, and through the links of each in order. When the
    interfaces and links before [link] are read without error and passed
    over, and [link] carries a non-loopback address with a non-empty
    netmask, the result is the network that [IPv4Network] derives from
    that address and netmask, or [None] when [IPv4Network] rejects them.
    When reading an interface raises, or a link has no 'addr', before any
    such link is found, the result is [None], whatever the later
    interfaces carry. When no interface carries an address other than
    127.0.0.1 with a non-empty netmask, the result is [None]. *)
Theorem get_local_network_info_first_usable (w : world) :
  (forall pre iface post addresses lpre link lpost ip mask,
     netifaces_interfaces w = pre ++ iface :: post ->
     Forall (skipped_interface w) pre ->
     netifaces_ifaddresses w iface = Return addresses ->
     addresses !! AF_INET = Some (lpre ++ link :: lpost) ->
     Forall skipped_link lpre ->
     link !! "addr" = Some ip -> spec_loopback ip = false ->
     link !! "netmask" = Some mask -> mask <> EmptyString ->
     fst (get_local_network_info w) =
       match ipaddress_IPv4Network w (ip ++ "/" ++ mask)%string with
       | Return network => Some network
       | Raise _ => None
       end) /\
  (forall pre iface post e,
     netifaces_interfaces w = pre ++ iface :: post ->
     Forall (skipped_interface w) pre ->
     netifaces_ifaddresses w iface = Raise e ->
     fst (get_local_network_info w) = None) /\
  (forall pre iface post addresses lpre link lpost,
     netifaces_interfaces w = pre ++ iface :: post ->
     Forall (skipped_interface w) pre ->
     netifaces_ifaddresses w iface = Return addresses ->
     addresses !! AF_INET = Some (lpre ++ link :: lpost) ->
     Forall skipped_link lpre ->
     link !! "addr" = None ->
     fst (get_local_network_info w) = None) /\
  ((forall iface, In iface (netifaces_interfaces w) -> ~ carries_usable w iface) ->
   fst (get_local_network_info w) = None).
Proof.
  split; [|split; [|split]].
  - intros pre iface post addresses lpre link lpost ip mask
      Hifs Hpre Ha Hl Hlpre Hip Hlo Hm Hmne.
    pose proof (spec_loopback_literal ip Hlo) as Hne.
    unfold get_local_network_info.
    rewrite Hifs, (scan_interfaces_skipped w _ _ Hpre). simpl.
    rewrite Ha, Hl, (scan_links_first w _ _ _ _ _ Hlpre Hip Hne Hm Hmne).
    destruct (ipaddress_IPv4Network w (ip ++ "/" ++ mask)%string); reflexivity.
  - intros pre iface post e Hifs Hpre Hr. unfold get_local_network_info.
    rewrite Hifs, (scan_interfaces_skipped w _ _ Hpre). simpl. rewrite Hr. reflexivity.
  - intros pre iface post addresses lpre link lpost Hifs Hpre Ha Hl Hlpre Hip.
    unfold get_local_network_info.
    rewrite Hifs, (scan_interfaces_skipped w _ _ Hpre). simpl.
    rewrite Ha, Hl, (scan_links_skip w _ _ Hlpre). simpl. rewrite Hip. reflexivity.
  - intros Hnone. unfold get_local_network_info.
    destruct (scan_interfaces w (netifaces_interfaces w)) as [[network|] | e] eqn:Hs;
      try reflexivity.
    destruct (scan_interfaces_found w _ _ Hs) as (iface & Hin & Hc).
    destruct (Hnone iface Hin Hc).
Qed.

Lemma get_local_network_info_first_usable_witness :
  fst (get_local_network_info lab_world) = Some lab_network.
Proof.
  refine (eq_trans
            (proj1 (get_local_network_info_first_usable lab_world)
               ["lo"] "eth0" []
               (<[AF_INET := [lab_link "192.168.1.5" "255.255.255.252"]]> ∅)
               [] (lab_link "192.168.1.5" "255.255.255.252") []
               "192.168.1.5" "255.255.255.252" _ _ _ _ _ _ _ _ _) _).
  - reflexivity.
  - constructor; [|constructor].
    exists (<[AF_INET := [lab_link "127.0.0.1" "255.0.0.0"]]> ∅).
    split; [reflexivity|]. right.
    exists [lab_link "127.0.0.1" "255.0.0.0"]. split; [reflexivity|].
    constructor; [|constructor].
    exists "127.0.0.1"%string. split; reflexivity.
  - reflexivity.
  - reflexivity.
  - constructor.
  - reflexivity.
  - reflexivity.
  - reflexivity.
  - discriminate.
  - reflexivity.
Defined.

(** C7, the claim as stated fails: on a machine whose [eth0] cannot be
    queried, [lo] and [eth0] carry no usable address, [wlan0] carries the
    non-loopback address 192.168.1.5 with a netmask, and the result is
    [None], not the network of [wlan0]. *)
Lemma later_usable_interface_not_reached :
  netifaces_interfaces broken_world = ["lo"; "eth0"; "wlan0"]%string /\
  ~ carries_usable broken_world "lo" /\
  ~ carries_usable broken_world "eth0" /\
  carries_usable broken_world "wlan0" /\
  spec_loopback "192.168.1.5" = false /\
  fst (get_local_network_info broken_world) = None.
Proof.
  split; [reflexivity|]. split; [|split; [|split; [|split]]].
  - intros (addresses & links & link & ip & mask & Ha & Hl & Hin & Hip & Hne & _).
    change (Return (<[AF_INET := [lab_link "127.0.0.1" "255.0.0.0"]]> ∅) = Return addresses)
      in Ha.
    injection Ha as <-. rewrite lookup_insert_eq in Hl. injection Hl as <-.
    destruct Hin as [<- | []]. unfold lab_link in Hip.
    rewrite lookup_insert_eq in Hip. injection Hip as <-.
    apply Hne. reflexivity.
  - intros (addresses & links & link & ip & mask & Ha & _). discriminate Ha.
  - exists (<[AF_INET := [lab_link "192.168.1.5" "255.255.255.252"]]> ∅),
           [lab_link "192.168.1.5" "255.255.255.252"],
           (lab_link "192.168.1.5" "255.255.255.252"),
           "192.168.1.5"%string, "255.255.255.252"%string.
    repeat split; try reflexivity; try discriminate. left. reflexivity.
  - reflexivity.
  - reflexivity.
Qed.

(** * The thread pool *)

(** ** Schedules *)

Lemma exec_app W acts1 acts2 s :
  exec W (acts1 ++ acts2) s =
    match exec W acts1 s with
    | Some s1 => exec W acts2 s1
    | None => None
    end.
Proof.
  revert s. induction acts1 as [| a acts1 IH]; intros s; simpl; [reflexivity|].
  destruct (step W a s); [apply IH | reflexivity].
Qed.

Lemma reachable_refl W s : reachable W s s.
Proof. exists []. reflexivity. Qed.

Lemma reachable_step W s0 s a s' :
  reachable W s0 s -> step W a s = Some s' -> reachable W s0 s'.
Proof.
  intros [acts H] Hs. exists (acts ++ [a]).
  rewrite exec_app, H. simpl. rewrite Hs. reflexivity.
Qed.

Lemma reachable_trans W s0 s1 s2 :
  reachable W s0 s1 -> reachable W s1 s2 -> reachable W s0 s2.
Proof.
  intros [a1 H1] [a2 H2]. exists (a1 ++ a2). rewrite exec_app, H1. exact H2.
Qed.

(** Induction over the states a schedule passes through. *)
Lemma reachable_ind W s0 (P : state -> Prop) :
  P s0 ->
  (forall s a s', reachable W s0 s -> P s -> step W a s = Some s' -> P s') ->
  forall s, reachable W s0 s -> P s.
Proof.
  intros H0 Hstep s [acts H]. revert s H.
  induction acts as [| a acts IH] using rev_ind; intros s H.
  - simpl in H. injection H as <-. exact H0.
  - rewrite exec_app in H. destruct (exec W acts s0) as [s1|] eqn:H1; [|discriminate].
    simpl in H. destruct (step W a s1) as [s2|] eqn:H2; [|discriminate].
    injection H as <-. apply (Hstep s1 a s2); [exists acts; exact H1 | auto | exact H2].
Qed.

(** ** Lists: the thread table and the trace *)

Lemma total_app f l1 l2 : total f (l1 ++ l2) = (total f l1 + total f l2)%nat.
Proof. induction l1 as [| pc l1 IH]; simpl; [reflexivity | rewrite IH; lia]. Qed.

Lemma total_insert f (l : list worker_pc) t pc pc' :
  l !! t = Some pc ->
  (total f (<[t := pc']> l) + f pc = total f l + f pc')%nat.
Proof.
  revert t. induction l as [| x l IH]; intros [| t] H; simpl in *; try discriminate.
  - injection H as ->. lia.
  - specialize (IH t H). lia.
Qed.

Lemma total_le f g (l : list worker_pc) :
  (forall pc, (f pc <= g pc)%nat) -> (total f l <= total g l)%nat.
Proof.
  intros Hfg. induction l as [| pc l IH]; simpl; [lia|].
  specialize (Hfg pc). lia.
Qed.

Lemma total_bound f (l : list worker_pc) :
  (forall pc, (f pc <= 1)%nat) -> (total f l <= length l)%nat.
Proof.
  intros Hf. induction l as [| pc l IH]; simpl; [lia|].
  specialize (Hf pc). lia.
Qed.

Lemma pending_app l1 l2 : pending (l1 ++ l2) = (pending l1 ++ pending l2)%list.
Proof. unfold pending. apply flat_map_app. Qed.

Lemma pending_insert (l : list worker_pc) t pc pc' :
  l !! t = Some pc ->
  Permutation (pending (<[t := pc']> l) ++ probe_item pc)
              (pending l ++ probe_item pc').
Proof.
  unfold pending.
  revert t. induction l as [| x l IH]; intros [| t] H; simpl in *; try discriminate.
  - injection H as ->.
    rewrite <- !app_assoc.
    rewrite (Permutation_app_comm (flat_map probe_item l) (probe_item pc)).
    rewrite (Permutation_app_comm (flat_map probe_item l) (probe_item pc')).
    rewrite !app_assoc. apply Permutation_app_tail. apply Permutation_app_comm.
  - rewrite <- !app_assoc. apply Permutation_app_head. apply IH. exact H.
Qed.

Lemma snoc_split {A} (pre post tr : list A) x e :
  pre ++ x :: post = tr ++ [e] ->
  (post = [] /\ pre = tr /\ x = e) \/
  (exists post', post = post' ++ [e] /\ tr = pre ++ x :: post').
Proof.
  destruct post as [| y post' _] using rev_ind; intros H.
  - left. apply app_inj_tail in H as [-> ->]. auto.
  - right. exists post'.
    rewrite app_comm_cons, app_assoc in H.
    apply app_inj_tail in H as [<- <-]. auto.
Qed.

Lemma omap_snoc {A B} (f : A -> option B) (l : list A) (x : A) :
  omap f (l ++ [x]) = (omap f l ++ match f x with Some y => [y] | None => [] end)%list.
Proof. rewrite omap_app. simpl. destruct (f x); reflexivity. Qed.

(** ** Case analysis on one step *)

(** Split a hypothesis [step W a s = Some s'] into one goal per statement
    of [main] and [worker], with [s] taken apart into its fields. *)
Ltac break_match H :=
  repeat match type of H with
         | context [if ?b then _ else _] => destruct b eqn:?
         | context [match ?x with _ => _ end] => destruct x eqn:?
         end.

Ltac step_cases H :=
  match type of H with
  | step _ ?a ?s = Some _ =>
      destruct s as [stop q u ths mpc tr out];
      destruct a as [[| t] w];
      unfold step in H; simpl in H;
      [ unfold main_step in H; simpl in H; destruct mpc
      | unfold worker_step in H; simpl in H;
        destruct (ths !! t) as [[]|] eqn:Hpc ];
      simpl in H; break_match H; try discriminate H;
      injection H as <-; simpl in *
  end.

(** Start an induction over the reachable states on a goal
    [reachable W s0 s -> P s]. *)
Ltac reach_induction s :=
  let Hr := fresh "Hr" in
  intros Hr; pattern s;
  match goal with
  | |- ?P s => revert Hr; revert s; refine (reachable_ind _ _ P _ _); cbv beta
  end.

(** Take apart a lookup in an updated or extended thread table. *)
Ltac lookup_cases H :=
  first [ apply list_lookup_insert_Some in H as [(-> & H & _) | [_ H]]
        | apply lookup_snoc_Some in H as [[_ H] | [-> H]] ].

Ltac in_trace :=
  rewrite ?in_app_iff; simpl; eauto 6.

(** Take apart an equation [tr ++ [e] = pre ++ x :: post]. *)
Ltac split_trace H He :=
  symmetry in H;
  apply snoc_split in H as [(-> & -> & He) | (? & -> & H)].

Section Pool.

Variable W : nat.
Variable stop0 : bool.
Variable hosts : list IPv4Address.
Variable out0 : list string.

Local Abbreviation s0 := (populated stop0 hosts out0).

(** *** [main] starts exactly [W] workers *)

Lemma spawned_inv s :
  reachable W s0 s ->
  match main_pc s with
  | MStart => False
  | MSpawn k => length (threads s) = k /\ (k <= W)%nat
  | _ => length (threads s) = W
  end.
Proof.
  reach_induction s; [simpl; split; [reflexivity | lia]|].
  intros s a s' _ IH H. step_cases H; try rewrite length_insert; try assumption;
    try contradiction.
  - destruct IH as [<- _]. apply Nat.ltb_lt in Heqb.
    rewrite length_app. simpl. lia.
  - destruct IH as [<- HW]. apply Nat.ltb_ge in Heqb. lia.
Qed.

(** *** A connect call follows a successful probe of the same worker *)

Lemma gate_inv s :
  reachable W s0 s ->
  (forall t ip, threads s !! t = Some (WConnect ip) ->
                In (EvProbe t ip (Return true)) (trace s)) /\
  (forall pre t ip r post, trace s = pre ++ EvConnect t ip r :: post ->
                In (EvProbe t ip (Return true)) pre).
Proof.
  reach_induction s.
  { simpl. split; [intros t ip H; discriminate|].
    intros [] ? ? ? ? H; discriminate. }
  intros s a s' _ [IH1 IH2] H. step_cases H.
  all: split; [intros t' ip' Hl | intros pre t' ip' r' post Htr].
  all: try (split_trace Htr He;
            [try discriminate He; try (injection He as -> -> ->) | ]).
  all: try solve [eapply IH2; eauto].
  all: try lookup_cases Hl; try discriminate Hl; try (injection Hl as <-).
  all: solve [in_trace].
Qed.

(** *** The flag is set only after a successful connect *)

Lemma set_inv s :
  reachable W s0 s ->
  (forall t ip, threads s !! t = Some (WSet ip) ->
                In (EvConnect t ip (Return true)) (trace s)) /\
  (forall t ip, In (EvSet t ip) (trace s) ->
                In (EvConnect t ip (Return true)) (trace s)).
Proof.
  reach_induction s.
  { simpl. split; [intros t ip H; discriminate | intros t ip []]. }
  intros s a s' _ [IH1 IH2] H. step_cases H.
  all: split; [intros t' ip' Hl | intros t' ip' Hin].
  all: try (apply in_app_iff in Hin as [Hin | [He | []]];
            [| try discriminate He; try (injection He as <- <-)]).
  all: try lookup_cases Hl; try discriminate Hl; try (injection Hl as <-).
  all: solve [in_trace].
Qed.

Lemma stop_inv s :
  reachable W s0 s ->
  stop_event s = true ->
  stop0 = true \/ exists t ip, In (EvSet t ip) (trace s).
Proof.
  reach_induction s; [simpl; auto|].
  intros s a s' _ IH H. step_cases H; intros Hs.
  all: try solve [destruct (IH Hs) as [? | (t' & ip' & Hin)];
                  [left; assumption | right; exists t', ip'; in_trace]].
  all: try discriminate Hs.
  right. exists t, ip. in_trace.
Qed.

(** The flag is never cleared. *)
Lemma stop_monotone a s s' :
  step W a s = Some s' -> stop_event s = true -> stop_event s' = true.
Proof. intros H. step_cases H; auto. Qed.

Lemma stop_monotone_exec acts s s' :
  exec W acts s = Some s' -> stop_event s = true -> stop_event s' = true.
Proof.
  revert s. induction acts as [| a acts IH]; intros s; simpl.
  - intros [= <-]. auto.
  - destruct (step W a s) as [s1|] eqn:H1; [|discriminate].
    intros H Hs. apply (IH s1 H). exact (stop_monotone a s s1 H1 Hs).
Qed.

(** A worker whose connect succeeded sets the flag before anything else. *)
Lemma success_inv s :
  reachable W s0 s ->
  forall t ip, In (EvConnect t ip (Return true)) (trace s) ->
               stop_event s = true \/ threads s !! t = Some (WSet ip).
Proof.
  reach_induction s; [simpl; intros t ip []|].
  intros s a s' _ IH H. step_cases H; intros t' ip' Hin.
  all: try (apply in_app_iff in Hin as [Hin | [He | []]];
            [| try discriminate He; try (injection He as <- <-)]).
  all: try solve [right; apply list_lookup_insert_eq; eapply lookup_lt_Some; eauto].
  all: try solve [left; reflexivity].
  all: try solve [destruct (IH _ _ Hin) as [Hs | Hl]; [left; exact Hs|];
                  right; try (apply lookup_app_l_Some; exact Hl); exact Hl].
  all: destruct (IH _ _ Hin) as [Hs | Hl]; [left; exact Hs|].
  all: destruct (decide (t = t')) as [<- | Hne];
         [rewrite Hpc in Hl; discriminate Hl
         | right; rewrite list_lookup_insert_ne by exact Hne; exact Hl].
Qed.

(** *** The queue and its task counter *)

(** Bring the effect of a thread table update on [total f] into the context. *)
Ltac total_step :=
  match goal with
  | Hpc : ?ths !! ?t = Some ?pc |- context [total ?f (<[?t := ?pc']> ?ths)] =>
      pose proof (total_insert f ths t pc pc' Hpc)
  | |- context [total ?f (?ths ++ [?pc])] =>
      rewrite (total_app f ths [pc])
  | _ => idtac
  end.

(** [task_done] is never called more often than items were put. *)
Lemma tasks_inv s :
  reachable W s0 s ->
  (length (ip_queue s) + total holds_item (threads s) <= unfinished_tasks s)%nat.
Proof.
  reach_induction s; [simpl; lia|].
  intros s a s' Hr IH H. pose proof (spawned_inv s Hr) as Hsp.
  step_cases H; try contradiction; total_step; simpl in *; lia.
Qed.

(** The queue hands out the hosts in order, each one once. *)
Lemma queue_inv s :
  reachable W s0 s -> dequeued (trace s) ++ ip_queue s = hosts.
Proof.
  reach_induction s; [reflexivity|].
  intros s a s' Hr IH H. pose proof (spawned_inv s Hr) as Hsp.
  step_cases H; try contradiction; unfold dequeued in *;
    rewrite ?omap_app; simpl; rewrite ?app_nil_r in *; rewrite <- ?app_assoc;
    exact IH.
Qed.

(** Every dequeued host has been probed or is about to be. *)
Lemma probed_inv s :
  reachable W s0 s ->
  Permutation (probed (trace s) ++ pending (threads s)) (dequeued (trace s)).
Proof.
  reach_induction s; [reflexivity|].
  intros s a s' Hr IH H. pose proof (spawned_inv s Hr) as Hsp.
  step_cases H; try contradiction; unfold dequeued, probed in *;
    rewrite ?omap_app; simpl; rewrite ?app_nil_r in *; try exact IH.
  all: try (rewrite pending_app; simpl; rewrite app_nil_r; exact IH).
  all: match goal with
       | Hpc : ?ths !! ?t = Some ?pc |- context [pending (<[?t := ?pc']> ?ths)] =>
           pose proof (pending_insert ths t pc pc' Hpc) as Hp;
           simpl in Hp; rewrite ?app_nil_r in Hp
       end.
  all: try (rewrite Hp; exact IH).
  all: try (rewrite Hp, app_assoc; apply Permutation_app_tail; exact IH).
  all: rewrite <- app_assoc, (Permutation_app_comm [ip]), Hp; exact IH.
Qed.

(** *** What [main] knows when it stops waiting *)

Lemma drained_inv s :
  reachable W s0 s ->
  match main_pc s with
  | MJoin _ | MReturned => stop_event s = true \/ ip_queue s = []
  | _ => True
  end.
Proof.
  reach_induction s; [exact I|].
  intros s a s' Hr IH H. pose proof (spawned_inv s Hr) as Hsp.
  step_cases H; try contradiction; try destruct mpc; auto.
  all: destruct IH as [IH | IH]; [auto | discriminate IH].
Qed.

Lemma joined_inv s :
  reachable W s0 s ->
  match main_pc s with
  | MJoin i => forall j pc, (j < i)%nat -> threads s !! j = Some pc -> is_alive pc = false
  | MReturned => forall j pc, threads s !! j = Some pc -> is_alive pc = false
  | _ => True
  end.
Proof.
  reach_induction s; [exact I|].
  intros s a s' Hr IH H. pose proof (spawned_inv s Hr) as Hsp.
  step_cases H; try contradiction; try exact I.
  1-2: intros; lia.
  1: { intros j pc Hj Hl. destruct (decide (j = i)) as [-> | Hne].
       - rewrite Heqo in Hl. injection Hl as <-. assumption.
       - apply (IH j pc); [lia | exact Hl]. }
  1: { intros j pc Hl. apply (IH j pc); [|exact Hl].
       apply lookup_ge_None in Heqo. apply lookup_lt_Some in Hl. lia. }
  all: destruct mpc; try exact I; intros j pc'.
  all: try (intros Hj Hl; lookup_cases Hl;
            [ subst pc'; specialize (IH _ _ Hj Hpc); discriminate IH
            | exact (IH _ _ Hj Hl) ]).
  all: try (intros Hl; lookup_cases Hl;
            [ subst pc'; specialize (IH _ _ Hpc); discriminate IH
            | exact (IH _ _ Hl) ]).
Qed.

(** *** How many connects can still succeed *)

Lemma credit_stop_le stop pc : (credit true pc <= credit stop pc)%nat.
Proof. destruct stop, pc; simpl; lia. Qed.

Lemma credit_le_1 stop pc : (credit stop pc <= 1)%nat.
Proof. destruct stop, pc; simpl; lia. Qed.

(** Each worker comes to at most one successful connect. *)
Lemma credit_inv s :
  reachable W s0 s ->
  (length (successes (trace s)) + total (credit (stop_event s)) (threads s)
   + unspawned W (main_pc s) <= W)%nat.
Proof.
  reach_induction s; [simpl; lia|].
  intros s a s' Hr IH H. pose proof (spawned_inv s Hr) as Hsp.
  step_cases H; try contradiction; unfold successes in *;
    rewrite ?omap_app, ?length_app; simpl.
  all: try (total_step; try destruct stop; simpl in *; lia).
  - apply Nat.ltb_lt in Heqb. rewrite total_app. simpl.
    pose proof (credit_le_1 stop WLoop). lia.
  - pose proof (total_insert (credit true) ths t _ (WTaskDone ip) Hpc) as Ht.
    pose proof (total_le (credit true) (credit stop) ths (credit_stop_le stop)).
    simpl in *. lia.
Qed.

(** *** After the flag is set *)

Lemma connects_after_stop_step a s s' :
  stop_event s = true -> step W a s = Some s' ->
  (length (connects (trace s')) + total in_flight (threads s')
   <= length (connects (trace s)) + total in_flight (threads s))%nat.
Proof.
  intros Hs H. step_cases H; try discriminate Hs; unfold connects in *;
    rewrite ?omap_app, ?length_app; simpl; total_step; simpl in *; lia.
Qed.

Lemma in_flight_at_insert ths t t' pc pc' :
  ths !! t' = Some pc ->
  in_flight_at t (<[t' := pc']> ths) =
    if decide (t' = t) then in_flight pc' else in_flight_at t ths.
Proof.
  intros Hpc. unfold in_flight_at. destruct (decide (t' = t)) as [-> | Hne].
  - rewrite list_lookup_insert_eq by (eapply lookup_lt_Some; exact Hpc). reflexivity.
  - rewrite list_lookup_insert_ne by exact Hne. reflexivity.
Qed.

Lemma in_flight_at_snoc ths t :
  in_flight_at t (ths ++ [WLoop]) = in_flight_at t ths.
Proof.
  unfold in_flight_at. destruct (ths !! t) as [pc|] eqn:Hl.
  - rewrite lookup_app_l by (eapply lookup_lt_Some; exact Hl). rewrite Hl. reflexivity.
  - destruct ((ths ++ [WLoop]) !! t) as [pc|] eqn:Hl'; [|reflexivity].
    apply lookup_snoc_Some in Hl' as [[_ Hl'] | [_ <-]]; [congruence | reflexivity].
Qed.

Lemma connects_by_after_stop_step n a s s' :
  stop_event s = true -> step W a s = Some s' ->
  (length (connects_by n (trace s')) + in_flight_at n (threads s')
   <= length (connects_by n (trace s)) + in_flight_at n (threads s))%nat.
Proof.
  intros Hs H. step_cases H; try discriminate Hs; unfold connects_by in *;
    rewrite ?omap_app, ?length_app; simpl; rewrite ?in_flight_at_snoc; try lia.
  all: rewrite (in_flight_at_insert _ _ _ _ _ Hpc).
  all: destruct (decide (t = n)) as [-> | Hne];
    [ unfold in_flight_at; rewrite Hpc, ?Nat.eqb_refl; simpl; lia
    | try (destruct (Nat.eqb_spec n t); [congruence|]); simpl; lia ].
Qed.

Lemma after_stop acts s s' :
  stop_event s = true -> exec W acts s = Some s' ->
  (length (connects (trace s')) + total in_flight (threads s')
   <= length (connects (trace s)) + total in_flight (threads s))%nat /\
  (forall t, (length (connects_by t (trace s')) + in_flight_at t (threads s')
              <= length (connects_by t (trace s)) + in_flight_at t (threads s))%nat).
Proof.
  revert s. induction acts as [| a acts IH]; intros s Hs; simpl.
  - intros [= <-]. split; [lia | intros; lia].
  - destruct (step W a s) as [s1|] eqn:H1; [|discriminate]. intros H.
    destruct (IH s1 (stop_monotone a s s1 H1 Hs) H) as [IHa IHb].
    pose proof (connects_after_stop_step a s s1 Hs H1). split; [lia|].
    intros t. specialize (IHb t).
    pose proof (connects_by_after_stop_step t a s s1 Hs H1). lia.
Qed.

(** *** A run that starts with the flag set *)

Lemma locked_inv s :
  stop0 = true -> reachable W s0 s ->
  stop_event s = true /\ ip_queue s = hosts /\ trace s = [] /\
  (forall t pc, threads s !! t = Some pc -> pc = WLoop \/ pc = WReturned).
Proof.
  intros H0. reach_induction s.
  { simpl. repeat split; auto. intros t pc H. discriminate. }
  intros s a s' Hr (IH1 & IH2 & IH3 & IH4) H. pose proof (spawned_inv s Hr) as Hsp.
  step_cases H; try contradiction; try discriminate IH1; repeat split; auto.
  all: try (intros t' pc' Hl; lookup_cases Hl; eauto).
  all: try (destruct (IH4 _ _ Hpc); discriminate).
  all: try discriminate IH3.
  all: try (destruct tr; discriminate IH3).
Qed.

(** *** Successes show on the console *)

Lemma attempt_success_printed w ip :
  value (attempt_adb_connect w ip) = Return true ->
  In (success_line ip) (printed (attempt_adb_connect w ip)).
Proof.
  unfold attempt_adb_connect.
  destruct (subprocess_run w (adb_command ip) true true 5000%N) as [[c | e] t].
  - destruct (cp_stdout c) as [out|]; [|discriminate].
    destruct (contains "connected to" out); simpl; [|discriminate].
    intros _. right. right. left. reflexivity.
  - destruct e; simpl; discriminate.
Qed.

Lemma console_inv s :
  reachable W s0 s ->
  forall t ip, In (EvConnect t ip (Return true)) (trace s) ->
               In (success_line ip) (console s).
Proof.
  reach_induction s; [simpl; intros t ip []|].
  intros s a s' _ IH H. step_cases H; intros t' ip' Hin.
  all: try (apply in_app_iff in Hin as [Hin | [He | []]];
            [| try discriminate He; try (injection He as <- <-)]).
  all: try solve [rewrite ?in_app_iff; eauto].
  rewrite in_app_iff. right. apply attempt_success_printed. exact Heqr.
Qed.

(** *** A scan in which no host answers *)

Lemma connects_nil_or_in tr :
  connects tr = [] \/ exists t ip r, In (EvConnect t ip r) tr.
Proof.
  induction tr as [| e tr IH]; [left; reflexivity|].
  destruct e; try (destruct IH as [IH | (t' & ip' & r' & Hin)];
                   [left; exact IH | right; exists t', ip', r'; right; exact Hin]).
  right. exists t, ip, r. left. reflexivity.
Qed.

Lemma unreachable_no_connect s :
  reachable W s0 s -> all_unreachable (trace s) ->
  forall t ip r, ~ In (EvConnect t ip r) (trace s).
Proof.
  intros Hr Hall t ip r Hin. apply in_split in Hin as (pre & post & Htr).
  pose proof (proj2 (gate_inv s Hr) pre t ip r post Htr) as Hp.
  assert (In (EvProbe t ip (Return true)) (trace s)) as Hp'.
  { rewrite Htr. apply in_app_iff. left. exact Hp. }
  specialize (Hall _ _ _ Hp'). discriminate Hall.
Qed.

Lemma unreachable_quiet s :
  stop0 = false -> reachable W s0 s -> all_unreachable (trace s) ->
  stop_event s = false /\ connects (trace s) = [] /\
  (forall t ip, threads s !! t <> Some (WConnect ip)).
Proof.
  intros H0 Hr Hall. pose proof (unreachable_no_connect s Hr Hall) as Hnc.
  repeat split.
  - destruct (stop_event s) eqn:Hs; [|reflexivity].
    destruct (stop_inv s Hr Hs) as [Ht | (t & ip & Hin)]; [congruence|].
    destruct (Hnc _ _ _ (proj2 (set_inv s Hr) t ip Hin)).
  - destruct (connects_nil_or_in (trace s)) as [Hc | (t & ip & r & Hin)];
      [exact Hc | destruct (Hnc _ _ _ Hin)].
  - intros t ip Hl. specialize (Hall _ _ _ (proj1 (gate_inv s Hr) t ip Hl)).
    discriminate Hall.
Qed.

(** With no answer and the flag unset, a worker dies only on the empty queue. *)
Lemma dead_inv s :
  stop0 = false -> reachable W s0 s -> all_unreachable (trace s) ->
  forall t pc, threads s !! t = Some pc -> is_alive pc = false -> ip_queue s = [].
Proof.
  intros H0. reach_induction s.
  { simpl. intros _ t pc H. discriminate. }
  intros s a s' Hr IH H.
  pose proof (spawned_inv s Hr) as Hsp.
  pose proof (tasks_inv s Hr) as Htk.
  pose proof (unreachable_quiet s H0 Hr) as Hq.
  step_cases H; try contradiction; intros Hall t' pc' Hl Hd.
  all: assert (all_unreachable tr) as Hall0
         by (intros ? ? ? Hin; eapply Hall; in_trace).
  all: specialize (IH Hall0); destruct (Hq Hall0) as (Hs & _ & Hnc).
  all: try solve [eapply IH; eauto].
  all: try discriminate Hs.
  all: try (lookup_cases Hl; [subst pc'; try discriminate Hd | ]).
  all: try solve [eapply IH; eauto].
  all: try reflexivity.
  all: try solve [specialize (IH _ _ Hl Hd); discriminate IH].
  all: try solve [destruct (Hnc _ _ Hpc)].
  all: try solve [assert (Raise e = Return false) as He
                    by (apply (Hall t' ip); in_trace); discriminate He].
  all: try solve [lookup_cases Hl; [eapply IH; eauto | subst pc'; discriminate Hd]].
  destruct q; [reflexivity | simpl in Htk; lia].
Qed.

Lemma step_unreachable a s s' :
  (forall ip, value (ping_host (env a) ip) = Return false) ->
  all_unreachable (trace s) -> step W a s = Some s' -> all_unreachable (trace s').
Proof.
  intros Hw Hall H. step_cases H; try exact Hall.
  all: intros t' ip' r' Hin; apply in_app_iff in Hin as [Hin | [He | []]];
    [exact (Hall _ _ _ Hin) | try discriminate He].
  all: injection He as <- <- <-; try reflexivity; rewrite Hw in Heqr; discriminate Heqr.
Qed.

(** *** Every worker statement brings the end nearer *)

Lemma worker_step_decreases a s s' :
  actor a <> Main -> step W a s = Some s' ->
  (fuel_bound W s' < fuel_bound W s)%nat.
Proof.
  intros Ha H. step_cases H; try (destruct Ha; reflexivity).
  all: unfold fuel_bound; simpl; total_step; simpl in *; lia.
Qed.

Lemma worker_step_enabled w t s pc :
  threads s !! t = Some pc -> is_alive pc = true ->
  exists s', step W (Act (Worker t) w) s = Some s'.
Proof.
  intros Hl Ha. unfold step, worker_step. simpl. rewrite Hl.
  destruct pc; try discriminate Ha.
  - destruct (stop_event s); eauto.
  - destruct (ip_queue s); eauto.
  - destruct (value (ping_host w ip)) as [[]|]; eauto.
  - destruct (value (attempt_adb_connect w ip)) as [[]|]; eauto.
  - eauto.
  - destruct (unfinished_tasks s); eauto.
Qed.

Lemma first_alive_Some l t :
  first_alive l = Some t -> exists pc, l !! t = Some pc /\ is_alive pc = true.
Proof.
  revert t. induction l as [| pc l IH]; intros t; simpl; [discriminate|].
  destruct (is_alive pc) eqn:Ha.
  - intros [= <-]. exists pc. auto.
  - destruct (first_alive l) as [n|]; simpl; [|discriminate].
    intros [= <-]. apply (IH n). reflexivity.
Qed.

Lemma first_alive_None l :
  first_alive l = None -> forall t pc, l !! t = Some pc -> is_alive pc = false.
Proof.
  induction l as [| x l IH]; simpl; [intros _ t pc H; discriminate|].
  destruct (is_alive x) eqn:Ha; [discriminate|].
  destruct (first_alive l) as [n|]; simpl; [discriminate|].
  intros _ [| t] pc Hl; simpl in Hl.
  - injection Hl as <-. exact Ha.
  - apply (IH eq_refl t pc Hl).
Qed.

(** When every worker is dead, [main] is not held up. *)
Lemma main_step_decreases w s :
  stop0 = false -> (1 <= W)%nat ->
  reachable W s0 s -> all_unreachable (trace s) ->
  (forall t pc, threads s !! t = Some pc -> is_alive pc = false) ->
  main_pc s <> MReturned ->
  exists s', step W (Act Main w) s = Some s' /\
             (fuel_bound W s' < fuel_bound W s)%nat.
Proof.
  intros H0 HW Hr Hall Hdead Hm.
  pose proof (spawned_inv s Hr) as Hsp.
  pose proof (dead_inv s H0 Hr Hall) as Hq.
  destruct s as [stop q u ths mpc tr out]. simpl in *.
  unfold step, main_step, fuel_bound. simpl.
  destruct mpc; try contradiction; simpl.
  - destruct Hsp as [Hk HkW]. destruct (Nat.ltb_spec k W).
    + eexists. split; [reflexivity|]. simpl. rewrite total_app. simpl. lia.
    + eexists. split; [reflexivity|]. simpl. lia.
  - destruct stop; eexists; (split; [reflexivity|]); simpl; lia.
  - destruct ths as [| pc ths'] eqn:Hths; [simpl in Hsp; lia|].
    rewrite (Hq 0%nat pc eq_refl (Hdead 0%nat pc eq_refl)).
    eexists. split; [reflexivity|]. simpl. lia.
  - eexists. split; [reflexivity|]. simpl. lia.
  - destruct (ths !! i) as [pc|] eqn:Hl.
    + rewrite (Hdead i pc Hl). apply lookup_lt_Some in Hl.
      eexists. split; [reflexivity|]. simpl. lia.
    + eexists. split; [reflexivity|]. simpl. lia.
Qed.

Lemma drive_progress w s :
  stop0 = false -> (1 <= W)%nat ->
  reachable W s0 s -> all_unreachable (trace s) ->
  main_pc s <> MReturned ->
  exists s', step W (drive w s) s = Some s' /\
             (fuel_bound W s' < fuel_bound W s)%nat.
Proof.
  intros H0 HW Hr Hall Hm. unfold drive.
  destruct (first_alive (threads s)) as [t|] eqn:Hf.
  - destruct (first_alive_Some _ _ Hf) as (pc & Hl & Ha).
    destruct (worker_step_enabled w t s pc Hl Ha) as [s' Hs'].
    exists s'. split; [exact Hs'|].
    eapply worker_step_decreases; [|exact Hs']. simpl. discriminate.
  - apply main_step_decreases; auto. apply first_alive_None. exact Hf.
Qed.

Lemma drive_env w s : env (drive w s) = w.
Proof. unfold drive. destruct (first_alive (threads s)); reflexivity. Qed.

(** Under the scheduler [drive], [fuel_bound] statements are enough for
    [main] to return. *)
Lemma drive_run_returns w :
  stop0 = false -> (1 <= W)%nat ->
  (forall ip, value (ping_host w ip) = Return false) ->
  forall n s,
    reachable W s0 s -> all_unreachable (trace s) ->
    (fuel_bound W s <= n)%nat ->
    main_pc (drive_run W w n s) = MReturned /\
    reachable W s0 (drive_run W w n s) /\
    all_unreachable (trace (drive_run W w n s)).
Proof.
  intros H0 HW Hw. induction n as [| n IH]; intros s Hr Hall Hn.
  - simpl. split; [|auto].
    unfold fuel_bound in Hn. destruct (main_pc s); simpl in Hn; try lia. reflexivity.
  - simpl. destruct (main_pc s) eqn:Hm.
    7: { destruct (step W (drive w s) s) as [s'|] eqn:Hs; [|auto].
         pose proof (joined_inv s Hr) as Hj. rewrite Hm in Hj.
         unfold drive in Hs. destruct (first_alive (threads s)) as [t|] eqn:Hf.
         - destruct (first_alive_Some _ _ Hf) as (pc & Hl & Ha).
           rewrite (Hj t pc Hl) in Ha. discriminate Ha.
         - unfold step, main_step in Hs. simpl in Hs. rewrite Hm in Hs. discriminate Hs. }
    all: destruct (drive_progress w s H0 HW Hr Hall ltac:(rewrite Hm; discriminate))
           as (s' & Hs' & Hlt); rewrite Hs'; apply IH;
         [ exact (reachable_step W s0 s (drive w s) s' Hr Hs')
         | apply (step_unreachable (drive w s) s s');
             [rewrite drive_env; exact Hw | exact Hall | exact Hs']
         | lia ].
Qed.

(** *** The last line [main] prints *)

Lemma final_line_inv s :
  reachable W s0 s -> main_pc s = MReturned ->
  last (console s) = Some scan_complete_line.
Proof.
  reach_induction s; [discriminate|].
  intros s a s' Hr IH H.
  pose proof (spawned_inv s Hr) as Hsp. pose proof (joined_inv s Hr) as Hj.
  step_cases H; try contradiction; intros Hm; try discriminate Hm.
  1: apply last_snoc.
  all: subst mpc; specialize (Hj _ _ Hpc); discriminate Hj.
Qed.

End Pool.

(** ** From the trace to what the claims speak about *)

Lemma pending_dead (ths : list worker_pc) :
  (forall j pc, ths !! j = Some pc -> is_alive pc = false) -> pending ths = [].
Proof.
  induction ths as [| pc ths IH]; intros Hd; [reflexivity|].
  unfold pending in *. simpl.
  pose proof (Hd 0%nat pc eq_refl) as H0.
  rewrite IH by (intros j pc' Hl; apply (Hd (S j) pc' Hl)).
  destruct pc; try discriminate H0; reflexivity.
Qed.

Lemma successes_in tr :
  successes tr <> [] -> exists t ip, In (EvConnect t ip (Return true)) tr.
Proof.
  induction tr as [| e tr IH]; [intros H; destruct (H eq_refl)|].
  intros H.
  assert (successes tr <> [] -> exists t ip, In (EvConnect t ip (Return true)) (e :: tr)) as Hrec.
  { intros Hn. destruct (IH Hn) as (t & ip & Hin). exists t, ip. right. exact Hin. }
  destruct e as [| | t ip [[] |] |]; try (apply Hrec; exact H).
  exists t, ip. left. reflexivity.
Qed.

Lemma in_successes tr t ip :
  In (EvConnect t ip (Return true)) tr -> successes tr <> [].
Proof.
  induction tr as [| e tr IH]; [intros []|].
  intros [-> | Hin]; [discriminate|].
  specialize (IH Hin). unfold successes in *. simpl.
  destruct e as [| | t' ip' [[] |] |]; try exact IH. discriminate.
Qed.

Lemma drive_run_reachable W w n s : reachable W s (drive_run W w n s).
Proof.
  revert s. induction n as [| n IH]; intros s; simpl; [apply reachable_refl|].
  destruct (step W (drive w s) s) as [s'|] eqn:Hs; [|apply reachable_refl].
  apply (reachable_trans W s s'); [|apply IH].
  apply (reachable_step W s s (drive w s) s' (reachable_refl W s) Hs).
Qed.

(** A call of [main] either has not begun, or has given up for want of a
    network, or has filled the queue. *)
Lemma process_start_cases W stop s :
  reachable W (process_start stop) s ->
  s = process_start stop \/
  (exists out, s = State stop [] 0 [] MReturned [] out) \/
  (exists hosts out, reachable W (populated stop hosts out) s).
Proof.
  reach_induction s; [left; reflexivity|].
  intros s a s' _ [-> | [(out & ->) | (hosts & out & Hr)]] H.
  - destruct a as [[| t] w]; unfold step in H; simpl in H; [|discriminate H].
    unfold main_step, process_start in H. simpl in H.
    destruct (get_local_network_info w) as [[net|] lines].
    + injection H as <-. right. right.
      exists (network_hosts net). eexists. apply reachable_refl.
    + injection H as <-. right. left. eexists. reflexivity.
  - destruct a as [[| t] w]; discriminate H.
  - right. right. exists hosts, out. exact (reachable_step W _ s a s' Hr H).
Qed.

(** What the shadowed [except queue.Empty] clause means for a worker: an
    exception out of [ping_host] ends the thread, it does not reach the
    [except Exception] clause. *)
Lemma worker_dies_when_probe_raises W w t ip e s :
  threads s !! t = Some (WPing ip) ->
  value (ping_host w ip) = Raise e ->
  exists s', step W (Act (Worker t) w) s = Some s' /\
             threads s' !! t = Some (WCrashed AttributeError).
Proof.
  intros Hl Hv. unfold step, worker_step. simpl. rewrite Hl, Hv.
  eexists. split; [reflexivity|]. simpl.
  apply list_lookup_insert_eq. eapply lookup_lt_Some. exact Hl.
Qed.

(** * The claims *)

(** C1 (as the code has it). The script keeps no record of a winning
    address: a successful connect is printed and then sets the shared
    flag, and setting is a plain set, which leaves the flag set whether or
    not it was set before. In every run the number of successful connects
    is at most the number of workers, every one of them is printed, its
    worker sets the flag before doing anything else, and when [main] has
    returned the flag is set exactly when it was set before the run or
    the run had a success, and the last line [main] printed is the fixed
    line "Network scan complete. Script exiting.", which names no
    address. *)
Theorem successes_bounded_by_workers W stop0 hosts out acts s :
  exec W acts (populated stop0 hosts out) = Some s ->
  (length (successes (trace s)) <= W)%nat /\
  (forall t ip, In (EvConnect t ip (Return true)) (trace s) ->
     In (success_line ip) (console s) /\
     (stop_event s = true \/ threads s !! t = Some (WSet ip))) /\
  (forall t ip w, threads s !! t = Some (WSet ip) ->
     exists s', step W (Act (Worker t) w) s = Some s' /\ stop_event s' = true /\
                successes (trace s') = successes (trace s) /\
                console s' = console s) /\
  (main_pc s = MReturned ->
     (stop_event s = true <-> stop0 = true \/ successes (trace s) <> []) /\
     last (console s) = Some scan_complete_line).
Proof.
  intros H. assert (reachable W (populated stop0 hosts out) s) as Hr by (exists acts; exact H).
  split; [|split; [|split]].
  - pose proof (credit_inv W stop0 hosts out s Hr). lia.
  - intros t ip Hin. split.
    + exact (console_inv W stop0 hosts out s Hr t ip Hin).
    + exact (success_inv W stop0 hosts out s Hr t ip Hin).
  - intros t ip w Hl. unfold step, worker_step. simpl. rewrite Hl.
    eexists. split; [reflexivity|]. simpl. split; [reflexivity|]. split; [|reflexivity].
    unfold successes. rewrite omap_app. simpl. apply app_nil_r.
  - intros Hm. split; [|exact (final_line_inv W stop0 hosts out s Hr Hm)]. split.
    + intros Hs. destruct (stop_inv W stop0 hosts out s Hr Hs) as [H0 | (t & ip & Hin)];
        [left; exact H0 | right].
      apply (in_successes _ t ip). exact (proj2 (set_inv W stop0 hosts out s Hr) t ip Hin).
    + intros [H0 | Hn].
      * apply (stop_monotone_exec W acts _ s H). exact H0.
      * destruct (successes_in _ Hn) as (t & ip & Hin).
        destruct (success_inv W stop0 hosts out s Hr t ip Hin) as [Hs | Hl]; [exact Hs|].
        pose proof (joined_inv W stop0 hosts out s Hr) as Hj. rewrite Hm in Hj.
        specialize (Hj t _ Hl). discriminate Hj.
Qed.

Lemma successes_bounded_by_workers_witness :
  (length (successes (trace (after 2 (race_until_set ++ race_after_set ++ race_finish)
                               (populated false [host1; host2] [])))) <= 2)%nat.
Proof.
  apply (successes_bounded_by_workers 2 false [host1; host2] []
           (race_until_set ++ race_after_set ++ race_finish)).
  vm_compute. reflexivity.
Defined.

(** C1, the claim as stated fails: two workers connect successfully in
    the same run, both set the flag, and both successes are reported. *)
Lemma two_successes_both_reported :
  exec 2 (race_until_set ++ race_after_set ++ race_finish)
         (populated false [host1; host2] []) =
    Some (after 2 (race_until_set ++ race_after_set ++ race_finish)
                  (populated false [host1; host2] [])) /\
  main_pc (after 2 (race_until_set ++ race_after_set ++ race_finish)
                   (populated false [host1; host2] [])) = MReturned /\
  successes (trace (after 2 (race_until_set ++ race_after_set ++ race_finish)
                            (populated false [host1; host2] []))) = [host1; host2] /\
  setters (trace (after 2 (race_until_set ++ race_after_set ++ race_finish)
                          (populated false [host1; host2] []))) = [host1; host2] /\
  In (success_line host1)
     (console (after 2 (race_until_set ++ race_after_set ++ race_finish)
                       (populated false [host1; host2] []))) /\
  In (success_line host2)
     (console (after 2 (race_until_set ++ race_after_set ++ race_finish)
                       (populated false [host1; host2] []))).
Proof. vm_compute. repeat split; auto 20. Qed.



(** C3 (as the code has it). Once the flag is set, a worker begins a
    further connect only if it had already passed the test at the loop
    head, and then only one: per worker the connects after that moment are
    at most [in_flight_at], which is 0 or 1, and over all workers at most
    the number of workers in flight, which is at most [W]. *)
Theorem connects_after_stop_bounded W stop0 hosts out acts1 s1 acts2 s2 :
  exec W acts1 (populated stop0 hosts out) = Some s1 ->
  stop_event s1 = true ->
  exec W acts2 s1 = Some s2 ->
  (forall t, (length (connects_by t (trace s2))
              <= length (connects_by t (trace s1)) + in_flight_at t (threads s1))%nat) /\
  (forall t, (in_flight_at t (threads s1) <= 1)%nat) /\
  (length (connects (trace s2))
   <= length (connects (trace s1)) + total in_flight (threads s1))%nat /\
  (total in_flight (threads s1) <= W)%nat.
Proof.
  intros H1 Hs H2.
  destruct (after_stop W acts2 s1 s2 Hs H2) as [Ha Hb].
  split; [|split; [|split]].
  - intros t. specialize (Hb t). lia.
  - intros t. unfold in_flight_at. destruct (threads s1 !! t) as [[]|]; simpl; lia.
  - lia.
  - assert (reachable W (populated stop0 hosts out) s1) as Hr by (exists acts1; exact H1).
    pose proof (spawned_inv W stop0 hosts out s1 Hr) as Hsp.
    pose proof (total_bound in_flight (threads s1)
                  ltac:(intros []; simpl; lia)) as Hb'.
    destruct (main_pc s1); try contradiction; lia.
Qed.

Lemma connects_after_stop_bounded_witness :
  (length (connects (trace (after 2 race_after_set
             (after 2 race_until_set (populated false [host1; host2] [])))))
   <= length (connects (trace (after 2 race_until_set (populated false [host1; host2] []))))
      + total in_flight (threads (after 2 race_until_set (populated false [host1; host2] []))))%nat.
Proof.
  apply (connects_after_stop_bounded 2 false [host1; host2] []
           race_until_set
           (after 2 race_until_set (populated false [host1; host2] []))
           race_after_set
           (after 2 race_after_set
              (after 2 race_until_set (populated false [host1; host2] []))));
    vm_compute; reflexivity.
Defined.

(** C3, the claim as stated fails: worker 0 sets the flag while worker 1
    has dequeued its host and not yet probed it; worker 1 then probes and
    begins a connect call that it had not started when the flag was set. *)
Lemma connect_begun_after_stop :
  exec 2 race_until_set (populated false [host1; host2] []) =
    Some (after 2 race_until_set (populated false [host1; host2] [])) /\
  stop_event (after 2 race_until_set (populated false [host1; host2] [])) = true /\
  threads (after 2 race_until_set (populated false [host1; host2] [])) !! 1%nat =
    Some (WPing host2) /\
  connects_by 1 (trace (after 2 race_until_set (populated false [host1; host2] []))) = [] /\
  exec 2 race_after_set (after 2 race_until_set (populated false [host1; host2] [])) =
    Some (after 2 race_after_set
            (after 2 race_until_set (populated false [host1; host2] []))) /\
  connects_by 1 (trace (after 2 race_after_set
                          (after 2 race_until_set (populated false [host1; host2] []))))
    = [host2].
Proof. vm_compute. repeat split; reflexivity. Qed.

(** C8. For every candidate, a connect call of a worker on an address is
    preceded by a probe of that worker on that address that returned
    [True]. So in a run (flag unset at the start, at least one worker) in
    which every probe returned [False] there is no connect call, and
    letting the threads run on while no host answers brings [main] to its
    return with the flag unset, the queue empty and still no connect
    call: the scan completes as exhausted. *)
Theorem connect_only_after_reachable_probe W hosts out acts s :
  (1 <= W)%nat ->
  exec W acts (populated false hosts out) = Some s ->
  (forall pre t ip r post,
     trace s = pre ++ EvConnect t ip r :: post ->
     In (EvProbe t ip (Return true)) pre) /\
  (all_unreachable (trace s) ->
   connects (trace s) = [] /\
   forall w, (forall ip, value (ping_host w ip) = Return false) ->
     reachable W s (drive_run W w (fuel_bound W s) s) /\
     main_pc (drive_run W w (fuel_bound W s) s) = MReturned /\
     stop_event (drive_run W w (fuel_bound W s) s) = false /\
     ip_queue (drive_run W w (fuel_bound W s) s) = [] /\
     connects (trace (drive_run W w (fuel_bound W s) s)) = []).
Proof.
  intros HW H.
  assert (reachable W (populated false hosts out) s) as Hr by (exists acts; exact H).
  split; [exact (proj2 (gate_inv W false hosts out s Hr))|].
  intros Hall.
  split; [exact (proj1 (proj2 (unreachable_quiet W false hosts out s eq_refl Hr Hall)))|].
  intros w Hw.
  destruct (drive_run_returns W false hosts out w eq_refl HW Hw
              (fuel_bound W s) s Hr Hall (Nat.le_refl _)) as (Hm & Hr' & Hall').
  destruct (unreachable_quiet W false hosts out _ eq_refl Hr' Hall') as (Hs & Hc & _).
  pose proof (drained_inv W false hosts out _ Hr') as Hd. rewrite Hm in Hd.
  repeat split; try assumption.
  - apply drive_run_reachable.
  - destruct Hd as [Hd | Hd]; [congruence | exact Hd].
Qed.

Lemma connect_only_after_reachable_probe_witness :
  connects (trace (populated false [host1; host2] [])) = [] /\
  main_pc (drive_run 2 silent_world
             (fuel_bound 2 (populated false [host1; host2] []))
             (populated false [host1; host2] [])) = MReturned.
Proof.
  assert (all_unreachable (trace (populated false [host1; host2] []))) as Hall
    by (intros t ip r []).
  pose proof (proj2 (connect_only_after_reachable_probe 2 [host1; host2] [] []
                       (populated false [host1; host2] [])
                       (le_S 1 1 (le_n 1)) eq_refl) Hall) as [Hc Hrun].
  split; [exact Hc|].
  exact (proj1 (proj2 (Hrun silent_world (fun ip => eq_refl)))).
Defined.

(** C10. The flag is a module global that nothing clears. When a call of
    [main] has returned after a successful connect, the flag is set; and in
    every later call of [main] in the same process, which starts with the
    flag as the earlier call left it, the flag stays set, nothing is
    dequeued and nothing is probed: every worker is at the loop head or
    has returned, and the only statement a worker can run takes it out of
    the loop. *)
Theorem stop_event_outlives_main W acts1 s1 acts2 s2 :
  exec W acts1 (process_start false) = Some s1 ->
  main_pc s1 = MReturned ->
  successes (trace s1) <> [] ->
  exec W acts2 (process_start (stop_event s1)) = Some s2 ->
  stop_event s1 = true /\ stop_event s2 = true /\
  dequeued (trace s2) = [] /\ probed (trace s2) = [] /\
  (forall t pc, threads s2 !! t = Some pc -> pc = WLoop \/ pc = WReturned) /\
  (forall t w s3, step W (Act (Worker t) w) s2 = Some s3 ->
     threads s3 !! t = Some WReturned /\ ip_queue s3 = ip_queue s2 /\ trace s3 = []).
Proof.
  intros H1 Hm Hsucc H2.
  assert (stop_event s1 = true) as Hs1.
  { destruct (process_start_cases W false s1 ltac:(exists acts1; exact H1))
      as [-> | [(out & ->) | (hosts & out & Hr)]].
    - discriminate Hm.
    - destruct (Hsucc eq_refl).
    - destruct (successes_in _ Hsucc) as (t & ip & Hin).
      destruct (success_inv W false hosts out s1 Hr t ip Hin) as [Hs | Hl]; [exact Hs|].
      pose proof (joined_inv W false hosts out s1 Hr) as Hj. rewrite Hm in Hj.
      specialize (Hj t _ Hl). discriminate Hj. }
  split; [exact Hs1|]. rewrite Hs1 in H2.
  assert (stop_event s2 = true /\ trace s2 = [] /\
          (forall t pc, threads s2 !! t = Some pc -> pc = WLoop \/ pc = WReturned))
    as (Hs2 & Htr & Hpcs).
  { destruct (process_start_cases W true s2 ltac:(exists acts2; exact H2))
      as [-> | [(out & ->) | (hosts & out & Hr)]].
    - simpl. repeat split; auto. intros t pc Hl. discriminate Hl.
    - simpl. repeat split; auto. intros t pc Hl. discriminate Hl.
    - destruct (locked_inv W true hosts out s2 eq_refl Hr) as (? & _ & ? & ?). auto. }
  split; [exact Hs2|]. rewrite Htr. repeat split; auto.
  all: unfold step, worker_step in H; simpl in H;
    destruct (threads s2 !! t) as [pc|] eqn:Hl; [|discriminate H];
    destruct (Hpcs t pc Hl) as [-> | ->]; [|discriminate H];
    rewrite Hs2 in H; injection H as <-; simpl; auto.
  apply list_lookup_insert_eq. eapply lookup_lt_Some. exact Hl.
Qed.

Lemma stop_event_outlives_main_witness :
  probed (trace (after 2 second_call
                   (process_start (stop_event (after 2 first_call (process_start false))))))
    = [].
Proof.
  refine (proj1 (proj2 (proj2 (proj2
            (stop_event_outlives_main 2 first_call
               (after 2 first_call (process_start false))
               second_call
               (after 2 second_call
                  (process_start (stop_event (after 2 first_call (process_start false)))))
               _ _ _ _))))).
  - vm_compute. reflexivity.
  - vm_compute. reflexivity.
  - vm_compute. discriminate.
  - vm_compute. reflexivity.
Defined.

(** C4 (as the code has it). Whenever [main] has returned, the process
    ends with status 0, whether or not the flag was set. When discovery
    finds no network, the first statement of [main] prints the diagnostic
    and returns, before the queue is filled and before any worker is
    started; the status is 0 in this case as well. *)
Theorem exit_status_is_zero W stop :
  (forall acts s, exec W acts (process_start stop) = Some s ->
     main_pc s = MReturned -> exit_status s = Some 0%Z) /\
  (forall w, fst (get_local_network_info w) = None ->
     exists s', step W (Act Main w) (process_start stop) = Some s' /\
       main_pc s' = MReturned /\ exit_status s' = Some 0%Z /\
       In "Could not determine local network. Exiting."%string (console s') /\
       ip_queue s' = [] /\ threads s' = [] /\ trace s' = []).
Proof.
  split.
  - intros acts s _ Hm. unfold exit_status. rewrite Hm. reflexivity.
  - intros w Hn. unfold step, main_step. simpl.
    destruct (get_local_network_info w) as [network lines]. simpl in Hn. subst network.
    eexists. split; [reflexivity|]. simpl. repeat split.
    apply in_app_iff. right. left. reflexivity.
Qed.

Lemma exit_status_is_zero_witness :
  exit_status (after NUM_THREADS [by_main offline_world] (process_start false)) = Some 0%Z.
Proof.
  refine (proj1 (exit_status_is_zero NUM_THREADS false) [by_main offline_world]
            (after NUM_THREADS [by_main offline_world] (process_start false)) _ _).
  - vm_compute. reflexivity.
  - vm_compute. reflexivity.
Defined.

(** C4, the claim as stated fails: on a machine whose only interface is
    the loopback, discovery finds nothing, [main] prints the diagnostic
    and returns, and the exit status is 0, not a non-zero status. *)
Lemma no_interface_exit_status_zero :
  fst (get_local_network_info offline_world) = None /\
  exec NUM_THREADS [by_main offline_world] (process_start false) =
    Some (after NUM_THREADS [by_main offline_world] (process_start false)) /\
  main_pc (after NUM_THREADS [by_main offline_world] (process_start false)) = MReturned /\
  exit_status (after NUM_THREADS [by_main offline_world] (process_start false)) = Some 0%Z /\
  ~ (exists c, exit_status (after NUM_THREADS [by_main offline_world] (process_start false))
                 = Some c /\ c <> 0%Z).
Proof.
  vm_compute. repeat split; try reflexivity.
  intros (c & [= <-] & Hc). apply Hc. reflexivity.
Qed.

(** * Further properties of the helpers *)

(** ** The substring test *)

Lemma prefix_iff (p s : string) :
  String.prefix p s = true <-> exists post, s = (p ++ post)%string.
Proof.
  revert s. induction p as [| a p IH]; intros s.
  - split; [intros _; exists s; reflexivity | intros _; destruct s; reflexivity].
  - destruct s as [| b s]; simpl;
      [split; [discriminate | intros [post H]; discriminate H]|].
    destruct (ascii_dec a b) as [<- | Hne].
    + rewrite IH. split; intros [post H]; exists post.
      * rewrite H. reflexivity.
      * injection H as H. exact H.
    + split; [discriminate|]. intros [post H]. injection H as H _.
      destruct (Hne (eq_sym H)).
Qed.

Lemma contains_cons needle c rest :
  contains needle (String c rest) =
    String.prefix needle (String c rest) || contains needle rest.
Proof. reflexivity. Qed.

(** X1. The test [needle in hay] of line 80 holds exactly when [hay] is
    some text, then [needle], then some text. *)
Theorem contains_iff_substring (needle hay : string) :
  contains needle hay = true <->
  exists pre post, hay = (pre ++ needle ++ post)%string.
Proof.
  induction hay as [| c rest IH].
  - unfold contains. rewrite prefix_iff. split.
    + intros [post H]. exists EmptyString, post. exact H.
    + intros (pre & post & H). destruct pre as [| a pre]; [|discriminate H].
      exists post. exact H.
  - rewrite contains_cons, orb_true_iff, IH, prefix_iff. split.
    + intros [[post H] | (pre & post & H)].
      * exists EmptyString, post. exact H.
      * exists (String c pre), post. rewrite H. reflexivity.
    + intros (pre & post & H). destruct pre as [| a pre].
      * left. exists post. exact H.
      * right. injection H as _ H. exists pre, post. exact H.
Qed.

(** ** ping_host *)

(** X2. [ping_host] returns [True] exactly when [ping] could be started,
    finished within the one-second timeout and exited with status 0. *)
Theorem ping_host_true_iff (w : world) (ip : IPv4Address) :
  value (ping_host w ip) = Return true <->
  launch (spawn w (ping_command w ip)) = None /\
  exists d, duration (spawn w (ping_command w ip)) = Some d /\ (d <= 1000)%N /\
            returncode (spawn w (ping_command w ip)) = 0%Z.
Proof.
  unfold ping_host, subprocess_run.
  destruct (launch (spawn w (ping_command w ip))) as [[]|]; simpl.
  1-2: split; [discriminate | intros [H _]; discriminate H].
  destruct (duration (spawn w (ping_command w ip))) as [d|]; simpl.
  2: split; [discriminate | intros [_ (d & H & _)]; discriminate H].
  destruct (N.leb_spec d 1000) as [Hle | Hgt]; simpl.
  - destruct (Z.eqb_spec (returncode (spawn w (ping_command w ip))) 0) as [He | He]; simpl.
    + split; [|reflexivity]. intros _. split; [reflexivity|]. exists d. auto.
    + split; [discriminate|]. intros [_ (d' & _ & _ & H)]. contradiction.
  - split; [discriminate|]. intros [_ (d' & [= <-] & H & _)]. lia.
Qed.

(** X3. What [ping_host] does depends on the machine only through the
    outcome of one command: [ping -c 1 <ip>], or [ping -n 1 <ip>] when
    [os.name] is 'nt', the flag and the count being one argument. *)
Theorem ping_host_reads_one_command (w w' : world) (ip : IPv4Address) :
  os_name w = os_name w' ->
  spawn w ["ping"; if String.eqb (os_name w) "nt" then "-n 1" else "-c 1"; ip] =
  spawn w' ["ping"; if String.eqb (os_name w) "nt" then "-n 1" else "-c 1"; ip] ->
  ping_host w ip = ping_host w' ip.
Proof.
  intros Hos Hsp. unfold ping_host, subprocess_run, ping_command.
  rewrite <- Hos. cbv zeta. rewrite Hsp. reflexivity.
Qed.

Lemma ping_host_reads_one_command_witness :
  ping_host lab_world host1 = ping_host offline_world host1.
Proof.
  apply (ping_host_reads_one_command lab_world offline_world host1); reflexivity.
Defined.

(** ** attempt_adb_connect *)

(** X4. [attempt_adb_connect] returns [True] exactly when [adb] could be
    started, finished within the five-second timeout, exited with status
    0 and wrote an output that could be read as text and contains
    "connected to"; and then it has printed the line that reports the
    success. *)
Theorem attempt_adb_connect_true_iff (w : world) (ip : IPv4Address) :
  (value (attempt_adb_connect w ip) = Return true <->
   launch (spawn w (adb_command ip)) = None /\
   exists d out err,
     duration (spawn w (adb_command ip)) = Some d /\ (d <= 5000)%N /\
     returncode (spawn w (adb_command ip)) = 0%Z /\
     captured (spawn w (adb_command ip)) = Text (Some out) err /\
     contains "connected to" out = true) /\
  (value (attempt_adb_connect w ip) = Return true ->
   In (success_line ip) (printed (attempt_adb_connect w ip))).
Proof.
  split; [|apply attempt_success_printed].
  unfold attempt_adb_connect, subprocess_run.
  destruct (launch (spawn w (adb_command ip))) as [[]|]; simpl.
  1-2: split; [discriminate | intros [H _]; discriminate H].
  destruct (duration (spawn w (adb_command ip))) as [d|]; simpl.
  2: split; [discriminate | intros [_ (d & o & e & H & _)]; discriminate H].
  destruct (N.leb_spec d 5000) as [Hle | Hgt]; simpl.
  2: { split; [discriminate|]. intros [_ (d' & o & e & [= <-] & H & _)]. lia. }
  destruct (captured (spawn w (adb_command ip))) as [out err|]; simpl.
  2: split; [discriminate | intros [_ (d' & o & e & _ & _ & _ & H & _)]; discriminate H].
  destruct (Z.eqb_spec (returncode (spawn w (adb_command ip))) 0) as [He | He]; simpl.
  2: split; [discriminate | intros [_ (d' & o & e & _ & _ & H & _)]; contradiction].
  destruct out as [out|]; simpl.
  2: split; [discriminate | intros [_ (d' & o & e & _ & _ & _ & H & _)]; discriminate H].
  destruct (contains "connected to" out) eqn:Hc; simpl.
  - split; [|reflexivity]. intros _. split; [reflexivity|]. exists d, out, err. auto.
  - split; [discriminate|]. intros [_ (d' & o & e & _ & _ & _ & [= <- _] & H)].
    rewrite Hc in H. discriminate H.
Qed.

Lemma attempt_adb_connect_true_iff_witness :
  In (success_line host1) (printed (attempt_adb_connect lab_world host1)).
Proof.
  apply (proj2 (attempt_adb_connect_true_iff lab_world host1)). reflexivity.
Defined.



(** X6. The three exceptions that [attempt_adb_connect] handles never
    leave it. *)
Theorem attempt_adb_connect_contains_its_exceptions (w : world) (ip : IPv4Address) (e : exn) :
  value (attempt_adb_connect w ip) = Raise e ->
  e <> FileNotFoundError /\ e <> TimeoutExpired /\
  (forall code err, e <> CalledProcessError code err).
Proof.
  unfold attempt_adb_connect.
  destruct (subprocess_run w (adb_command ip) true true 5000%N) as [[c | e'] t].
  - destruct (cp_stdout c) as [out|]; simpl.
    + destruct (contains "connected to" out); discriminate.
    + intros [= <-]. repeat split; try discriminate; intros; discriminate.
  - destruct e'; simpl; try discriminate; intros [= <-];
      repeat split; try discriminate; intros; discriminate.
Qed.

Lemma attempt_adb_connect_contains_its_exceptions_witness :
  PermissionError <> FileNotFoundError /\ PermissionError <> TimeoutExpired /\
  (forall code err, PermissionError <> CalledProcessError code err).
Proof.
  apply (attempt_adb_connect_contains_its_exceptions forbidden_world host1 PermissionError).
  reflexivity.
Defined.

(** X7. What [attempt_adb_connect] does depends on the machine only
    through the outcome of the command [adb connect <ip>:5555]. *)
Theorem attempt_adb_connect_reads_one_command (w w' : world) (ip : IPv4Address) :
  spawn w ["adb"; "connect"; (ip ++ ":5555")%string] =
  spawn w' ["adb"; "connect"; (ip ++ ":5555")%string] ->
  attempt_adb_connect w ip = attempt_adb_connect w' ip.
Proof.
  intros Hsp. unfold attempt_adb_connect, subprocess_run.
  change (adb_command ip) with ["adb"; "connect"; (ip ++ ":5555")%string].
  cbv zeta. rewrite Hsp. reflexivity.
Qed.

Lemma attempt_adb_connect_reads_one_command_witness :
  attempt_adb_connect lab_world host1 = attempt_adb_connect offline_world host1.
Proof.
  apply (attempt_adb_connect_reads_one_command lab_world offline_world host1).
  reflexivity.
Defined.

(** ** get_local_network_info: how an error ends the search *)

(** X8. When [netifaces.ifaddresses] raises for an interface and the
    interfaces before it were passed over, [get_local_network_info]
    prints the error and returns [None]: the interfaces after it are not
    looked at, usable or not. *)
Theorem discovery_stops_at_interface_error w pre iface post e :
  netifaces_interfaces w = pre ++ iface :: post ->
  Forall (skipped_interface w) pre ->
  netifaces_ifaddresses w iface = Raise e ->
  get_local_network_info w =
    (None, [("Error discovering network info: " ++ exn_str e)%string]).
Proof.
  intros Hifs Hpre Hr. unfold get_local_network_info.
  rewrite Hifs, (scan_interfaces_skipped w _ _ Hpre). simpl. rewrite Hr. reflexivity.
Qed.

Lemma discovery_stops_at_interface_error_witness :
  get_local_network_info broken_world =
    (None, ["Error discovering network info: You must specify a valid interface name."%string]).
Proof.
  apply (discovery_stops_at_interface_error broken_world ["lo"] "eth0" ["wlan0"]
           (ValueError "You must specify a valid interface name.")).
  - reflexivity.
  - constructor; [|constructor].
    exists (<[AF_INET := [lab_link "127.0.0.1" "255.0.0.0"]]> ∅).
    split; [reflexivity|]. right.
    exists [lab_link "127.0.0.1" "255.0.0.0"]. split; [reflexivity|].
    constructor; [|constructor]. exists "127.0.0.1"%string. split; reflexivity.
  - reflexivity.
Defined.

(** X9. When [IPv4Network] rejects the address and netmask of the first
    usable link, [get_local_network_info] prints the error and returns
    [None]; it does not go on to the next link or interface. *)
Theorem discovery_stops_at_rejected_netmask
    w pre iface post addresses lpre link lpost ip mask e :
  netifaces_interfaces w = pre ++ iface :: post ->
  Forall (skipped_interface w) pre ->
  netifaces_ifaddresses w iface = Return addresses ->
  addresses !! AF_INET = Some (lpre ++ link :: lpost) ->
  Forall skipped_link lpre ->
  link !! "addr" = Some ip -> ip <> "127.0.0.1"%string ->
  link !! "netmask" = Some mask -> mask <> EmptyString ->
  ipaddress_IPv4Network w (ip ++ "/" ++ mask)%string = Raise e ->
  get_local_network_info w =
    (None, [("Error discovering network info: " ++ exn_str e)%string]).
Proof.
  intros Hifs Hpre Ha Hl Hlpre Hip Hne Hm Hmne Hnet.
  unfold get_local_network_info.
  rewrite Hifs, (scan_interfaces_skipped w _ _ Hpre). simpl.
  rewrite Ha, Hl, (scan_links_first w _ _ _ _ _ Hlpre Hip Hne Hm Hmne), Hnet.
  reflexivity.
Qed.

Lemma discovery_stops_at_rejected_netmask_witness :
  get_local_network_info odd_mask_world =
    (None, ["Error discovering network info: netmask is not valid"%string]).
Proof.
  apply (discovery_stops_at_rejected_netmask odd_mask_world ["lo"] "eth0" ["wlan0"]
           (<[AF_INET := [lab_link "192.168.1.5" "255.255.255.252"]]> ∅)
           [] (lab_link "192.168.1.5" "255.255.255.252") []
           "192.168.1.5" "255.255.255.252" (ValueError "netmask is not valid")).
  - reflexivity.
  - constructor; [|constructor].
    exists (<[AF_INET := [lab_link "127.0.0.1" "255.0.0.0"]]> ∅).
    split; [reflexivity|]. right.
    exists [lab_link "127.0.0.1" "255.0.0.0"]. split; [reflexivity|].
    constructor; [|constructor]. exists "127.0.0.1"%string. split; reflexivity.
  - reflexivity.
  - reflexivity.
  - constructor.
  - reflexivity.
  - discriminate.
  - reflexivity.
  - discriminate.
  - reflexivity.
Defined.

(** X10. A link dictionary without the key 'addr' ends the search with a
    [KeyError]: when the interfaces and links before it were passed over,
    [get_local_network_info] prints the error and returns [None], even if
    the link has a netmask and later links are usable. *)
Theorem discovery_stops_at_missing_addr
    w pre iface post addresses lpre link lpost :
  netifaces_interfaces w = pre ++ iface :: post ->
  Forall (skipped_interface w) pre ->
  netifaces_ifaddresses w iface = Return addresses ->
  addresses !! AF_INET = Some (lpre ++ link :: lpost) ->
  Forall skipped_link lpre ->
  link !! "addr" = None ->
  get_local_network_info w =
    (None, ["Error discovering network info: 'addr'"%string]).
Proof.
  intros Hifs Hpre Ha Hl Hlpre Hip.
  unfold get_local_network_info.
  rewrite Hifs, (scan_interfaces_skipped w _ _ Hpre). simpl.
  rewrite Ha, Hl, (scan_links_skip w _ _ Hlpre). simpl. rewrite Hip. reflexivity.
Qed.

Lemma discovery_stops_at_missing_addr_witness :
  get_local_network_info no_addr_world =
    (None, ["Error discovering network info: 'addr'"%string]).
Proof.
  apply (discovery_stops_at_missing_addr no_addr_world ["lo"] "eth0" ["wlan0"]
           (<[AF_INET := [<["netmask" := "255.255.255.0"%string]> ∅]]> ∅)
           [] (<["netmask" := "255.255.255.0"%string]> ∅) []).
  - reflexivity.
  - constructor; [|constructor].
    exists (<[AF_INET := [lab_link "127.0.0.1" "255.0.0.0"]]> ∅).
    split; [reflexivity|]. right.
    exists [lab_link "127.0.0.1" "255.0.0.0"]. split; [reflexivity|].
    constructor; [|constructor]. exists "127.0.0.1"%string. split; reflexivity.
  - reflexivity.
  - reflexivity.
  - constructor.
  - reflexivity.
Defined.

Lemma scan_links_sound w links network :
  scan_links w links = Return (Some network) ->
  exists link ip mask,
    In link links /\ link !! "addr" = Some ip /\ ip <> "127.0.0.1"%string /\
    link !! "netmask" = Some mask /\ mask <> EmptyString /\
    ipaddress_IPv4Network w (ip ++ "/" ++ mask)%string = Return network.
Proof.
  induction links as [| link rest IH]; simpl; [discriminate|].
  destruct (link !! "addr") as [ip|] eqn:Hip; [|discriminate].
  destruct (usable ip (link !! "netmask")) eqn:Hu.
  - apply usable_true_iff in Hu as [Hne (mask & Hm & Hmne)]. rewrite Hm. simpl.
    destruct (ipaddress_IPv4Network w (ip ++ "/" ++ mask)%string) as [n|e] eqn:Hn;
      [|discriminate].
    intros [= <-]. exists link, ip, mask. repeat split; auto using in_eq.
  - intros H. destruct (IH H) as (l & ip' & mask & Hin & Hrest).
    exists l, ip', mask. split; [right; exact Hin | exact Hrest].
Qed.

(** X11. Every network that [get_local_network_info] returns is what
    [IPv4Network] derives from a link of one of the interfaces whose
    address is not 127.0.0.1 and whose netmask is not empty; and the
    function has then printed that network and nothing else. *)
Theorem discovery_sound w network :
  fst (get_local_network_info w) = Some network ->
  (exists iface addresses links link ip mask,
     In iface (netifaces_interfaces w) /\
     netifaces_ifaddresses w iface = Return addresses /\
     addresses !! AF_INET = Some links /\ In link links /\
     link !! "addr" = Some ip /\ ip <> "127.0.0.1"%string /\
     link !! "netmask" = Some mask /\ mask <> EmptyString /\
     ipaddress_IPv4Network w (ip ++ "/" ++ mask)%string = Return network) /\
  snd (get_local_network_info w) =
    [("Discovered local network: " ++ network_str network)%string].
Proof.
  unfold get_local_network_info.
  destruct (scan_interfaces w (netifaces_interfaces w)) as [[n|] | e] eqn:Hs;
    simpl; try discriminate.
  intros [= ->]. split; [|reflexivity].
  revert Hs. generalize (netifaces_interfaces w) as ifaces.
  induction ifaces as [| iface rest IH]; simpl; [discriminate|].
  destruct (netifaces_ifaddresses w iface) as [addresses | e] eqn:Ha; [|discriminate].
  assert (scan_interfaces w rest = Return (Some network) ->
          exists iface0 addresses0 links link ip mask,
            (iface = iface0 \/ In iface0 rest) /\
            netifaces_ifaddresses w iface0 = Return addresses0 /\
            addresses0 !! AF_INET = Some links /\ In link links /\
            link !! "addr" = Some ip /\ ip <> "127.0.0.1"%string /\
            link !! "netmask" = Some mask /\ mask <> EmptyString /\
            ipaddress_IPv4Network w (ip ++ "/" ++ mask)%string = Return network) as Hrec.
  { intros H. destruct (IH H) as (i & a & ls & l & ip & m & Hin & Hrest).
    exists i, a, ls, l, ip, m. split; [right; exact Hin | exact Hrest]. }
  destruct (addresses !! AF_INET) as [links|] eqn:Hl; [|exact Hrec].
  destruct (scan_links w links) as [[n|] | e] eqn:Hsl; [| exact Hrec | discriminate].
  intros [= ->].
  destruct (scan_links_sound w links network Hsl) as (l & ip & m & Hin & Hrest).
  exists iface, addresses, links, l, ip, m. repeat split; tauto.
Qed.

Lemma discovery_sound_witness :
  snd (get_local_network_info lab_world) =
    ["Discovered local network: 192.168.1.4/30"%string].
Proof.
  apply (proj2 (discovery_sound lab_world lab_network eq_refl)).
Defined.

(** * Further properties of the thread pool *)

Lemma total_ge f (l : list worker_pc) t pc :
  l !! t = Some pc -> (f pc <= total f l)%nat.
Proof.
  revert t. induction l as [| x l IH]; intros [| t] H; simpl in *; try discriminate.
  - injection H as ->. lia.
  - specialize (IH t H). lia.
Qed.

Lemma in_probed tr t ip r : In (EvProbe t ip r) tr -> In ip (probed tr).
Proof.
  induction tr as [| e tr IH]; [intros []|].
  intros [-> | Hin]; [left; reflexivity|].
  specialize (IH Hin). unfold probed in *. simpl.
  destruct e; simpl; auto.
Qed.

(** Bring the effect of a thread table update on [total f] into the context. *)
Ltac total_step :=
  match goal with
  | Hpc : ?ths !! ?t = Some ?pc |- context [total ?f (<[?t := ?pc']> ?ths)] =>
      pose proof (total_insert f ths t pc pc' Hpc)
  | |- context [total ?f (?ths ++ [?pc])] =>
      rewrite (total_app f ths [pc])
  | _ => idtac
  end.

Section PoolMore.

Variable W : nat.
Variable stop0 : bool.
Variable hosts : list IPv4Address.
Variable out0 : list string.

Local Abbreviation s0 := (populated stop0 hosts out0).

(** The task counter counts the queued items, the items in the hands of
    a worker, and the items whose probe or connect raised. *)
Lemma accounting_inv s :
  reachable W s0 s ->
  unfinished_tasks s =
    (length (ip_queue s) + total holds_item (threads s)
     + length (raised (trace s)))%nat.
Proof.
  reach_induction s; [simpl; lia|].
  intros s a s' Hr IH H. pose proof (spawned_inv W stop0 hosts out0 s Hr) as Hsp.
  step_cases H; try contradiction; unfold raised in *;
    rewrite ?omap_app, ?length_app; simpl; total_step; simpl in *; lia.
Qed.

(** How a worker ends. *)
Lemma ended_inv s :
  reachable W s0 s ->
  forall t, (threads s !! t = Some WReturned -> stop_event s = true) /\
            (forall e, threads s !! t = Some (WCrashed e) -> e = AttributeError).
Proof.
  reach_induction s; [simpl; intros t; split; [|intros e]; discriminate|].
  intros s a s' _ IH H. step_cases H; intros t'; (split; [intros Hl | intros e' Hl]).
  all: try solve [eapply IH; eauto].
  all: try reflexivity.
  all: try (lookup_cases Hl; [try discriminate Hl; try (injection Hl as <-) | ]).
  all: try reflexivity.
  all: try solve [eapply IH; eauto].
  all: try solve [lookup_cases Hl; [eapply IH; eauto | discriminate Hl]].
  all: discriminate Hl.
Qed.

(** While every probe raises, a worker dequeues at most once. *)
Lemma dequeue_budget_inv s :
  reachable W s0 s ->
  all_raised (trace s) ->
  (length (dequeued (trace s)) + total may_dequeue (threads s)
   + unspawned W (main_pc s) <= W)%nat.
Proof.
  reach_induction s; [simpl; lia|].
  intros s a s' Hr IH H. pose proof (spawned_inv W stop0 hosts out0 s Hr) as Hsp.
  step_cases H; try contradiction; intros Hall.
  all: assert (all_raised tr) as Hall0
         by (intros ? ? ? Hin; eapply Hall; in_trace).
  all: specialize (IH Hall0).
  all: try solve [destruct (Hall t ip (Return true)) as [e' He'];
                  [in_trace | discriminate He']].
  all: try solve [destruct (Hall t ip (Return false)) as [e' He'];
                  [in_trace | discriminate He']].
  all: unfold dequeued in *; rewrite ?omap_app, ?length_app; simpl;
    total_step; simpl in *; try lia.
  apply Nat.ltb_lt in Heqb. lia.
Qed.

(** Every statement of a worker uses up some of [work_left]; no statement
    of [main] adds to it. *)
Lemma work_left_step a s s' :
  main_pc s <> MStart -> step W a s = Some s' ->
  (work_left W s' + (if is_worker_action a then 1 else 0) <= work_left W s)%nat.
Proof.
  intros Hm H. step_cases H; try (destruct Hm; reflexivity).
  all: unfold work_left, is_worker_action; simpl; total_step; simpl in *; try lia.
  apply Nat.ltb_lt in Heqb. lia.
Qed.

Lemma work_left_exec acts :
  forall s s', reachable W s0 s -> exec W acts s = Some s' ->
  (work_left W s' + worker_actions acts <= work_left W s)%nat.
Proof.
  induction acts as [| a acts IH]; intros s s' Hr; simpl.
  - intros [= <-]. unfold worker_actions. simpl. lia.
  - destruct (step W a s) as [s1|] eqn:H1; [|discriminate]. intros H.
    pose proof (spawned_inv W stop0 hosts out0 s Hr) as Hsp.
    assert (main_pc s <> MStart) as Hm by (intros E; rewrite E in Hsp; exact Hsp).
    pose proof (work_left_step a s s1 Hm H1) as Hstep.
    specialize (IH s1 s' (reachable_step W _ s a s1 Hr H1) H).
    unfold worker_actions in *. rewrite filter_cons.
    destruct (is_worker_action a) eqn:Ha.
    + rewrite decide_True by reflexivity. simpl. lia.
    + rewrite decide_False by discriminate. lia.
Qed.

End PoolMore.

Lemma total_dead f (ths : list worker_pc) :
  (forall pc, is_alive pc = false -> f pc = 0%nat) ->
  (forall t pc, ths !! t = Some pc -> is_alive pc = false) ->
  total f ths = 0%nat.
Proof.
  intros Hf. induction ths as [| pc ths IH]; intros Hd; [reflexivity|].
  simpl. rewrite (Hf pc (Hd 0%nat pc eq_refl)).
  rewrite IH by (intros t pc' Hl; apply (Hd (S t) pc' Hl)). reflexivity.
Qed.

(** X12. [queue.task_done()] never raises: whenever a worker is about to
    call it, the queue's counter of unfinished tasks is positive, so the
    call takes one off the counter and the worker goes back to the loop
    head. *)
Theorem task_done_never_raises W stop0 hosts out acts s t ip w :
  exec W acts (populated stop0 hosts out) = Some s ->
  threads s !! t = Some (WTaskDone ip) ->
  exists s', step W (Act (Worker t) w) s = Some s' /\
             threads s' !! t = Some WLoop /\
             unfinished_tasks s = S (unfinished_tasks s').
Proof.
  intros H Hl.
  assert (reachable W (populated stop0 hosts out) s) as Hr by (exists acts; exact H).
  pose proof (tasks_inv W stop0 hosts out s Hr) as Htk.
  pose proof (total_ge holds_item (threads s) t _ Hl) as Hge. simpl in Hge.
  unfold step, worker_step. simpl. rewrite Hl.
  destruct (unfinished_tasks s) as [| n]; [lia|].
  eexists. split; [reflexivity|]. simpl. split; [|reflexivity].
  apply list_lookup_insert_eq. eapply lookup_lt_Some. exact Hl.
Qed.

Lemma task_done_never_raises_witness :
  exists s', step 2 (Act (Worker 0) silent_world)
                  (after 2 (firstn 6 silent_scan) (populated false [host1; host2] []))
             = Some s' /\
             threads s' !! 0%nat = Some WLoop /\
             unfinished_tasks (after 2 (firstn 6 silent_scan)
                                 (populated false [host1; host2] []))
             = S (unfinished_tasks s').
Proof.
  apply (task_done_never_raises 2 false [host1; host2] [] (firstn 6 silent_scan)
           (after 2 (firstn 6 silent_scan) (populated false [host1; host2] []))
           0%nat host1 silent_world); vm_compute; reflexivity.
Defined.

(** X13. [main] never starts more than [W] workers, and once it has left
    the loop that starts them there are exactly [W]. *)
Theorem pool_has_num_threads_workers W stop0 hosts out acts s :
  exec W acts (populated stop0 hosts out) = Some s ->
  (length (threads s) <= W)%nat /\
  ((forall k, main_pc s <> MSpawn k) -> length (threads s) = W).
Proof.
  intros H.
  assert (reachable W (populated stop0 hosts out) s) as Hr by (exists acts; exact H).
  pose proof (spawned_inv W stop0 hosts out s Hr) as Hsp.
  destruct (main_pc s) eqn:Hm; try contradiction; try (split; [lia | intros _; exact Hsp]).
  destruct Hsp as [Hk HkW]. split; [lia|]. intros Hn. destruct (Hn k eq_refl).
Qed.

Lemma pool_has_num_threads_workers_witness :
  length (threads (after 2 silent_scan (populated false [host1; host2] []))) = 2%nat.
Proof.
  refine (proj2 (pool_has_num_threads_workers 2 false [host1; host2] [] silent_scan
                   (after 2 silent_scan (populated false [host1; host2] [])) _) _).
  - vm_compute. reflexivity.
  - intros k. vm_compute. discriminate.
Defined.

(** X14. [main] returns only when all [W] workers have been started and
    every one of them has ended, and only after the flag was set or the
    queue was seen empty. *)
Theorem main_returns_after_all_workers W stop0 hosts out acts s :
  exec W acts (populated stop0 hosts out) = Some s ->
  main_pc s = MReturned ->
  length (threads s) = W /\
  (forall t pc, threads s !! t = Some pc -> is_alive pc = false) /\
  (stop_event s = true \/ ip_queue s = []).
Proof.
  intros H Hm.
  assert (reachable W (populated stop0 hosts out) s) as Hr by (exists acts; exact H).
  pose proof (spawned_inv W stop0 hosts out s Hr) as Hsp.
  pose proof (joined_inv W stop0 hosts out s Hr) as Hj.
  pose proof (drained_inv W stop0 hosts out s Hr) as Hd.
  rewrite Hm in Hsp, Hj, Hd. auto.
Qed.

Lemma main_returns_after_all_workers_witness :
  length (threads (after 2 (race_until_set ++ race_after_set ++ race_finish)
                     (populated false [host1; host2] []))) = 2%nat.
Proof.
  refine (proj1 (main_returns_after_all_workers 2 false [host1; host2] []
                   (race_until_set ++ race_after_set ++ race_finish)
                   (after 2 (race_until_set ++ race_after_set ++ race_finish)
                      (populated false [host1; host2] [])) _ _));
    vm_compute; reflexivity.
Defined.

(** X15. The pool cannot get stuck. In every state in which [main] has
    not returned some thread can run its next statement, whatever the
    machine answers: a live worker always can, and [main] is held up only
    in [thread.join()] on a worker that is still alive. *)
Theorem pool_never_deadlocks W w s :
  (main_pc s <> MReturned -> exists s', step W (drive w s) s = Some s') /\
  (main_step W w s = None ->
   main_pc s = MReturned \/
   exists i pc, main_pc s = MJoin i /\ threads s !! i = Some pc /\ is_alive pc = true).
Proof.
  split.
  - intros Hm. unfold drive.
    destruct (first_alive (threads s)) as [t|] eqn:Hf.
    + destruct (first_alive_Some _ _ Hf) as (pc & Hl & Ha).
      exact (worker_step_enabled W w t s pc Hl Ha).
    + pose proof (first_alive_None _ Hf) as Hd.
      unfold step, main_step. simpl.
      destruct (main_pc s) eqn:Hpc; try (destruct (Hm eq_refl)).
      * destruct (get_local_network_info w) as [[net|] lines]; eauto.
      * destruct (k <? W)%nat; eauto.
      * destruct (stop_event s); eauto.
      * destruct (ip_queue s); eauto.
      * eauto.
      * destruct (threads s !! i) as [pc|] eqn:Hl; [rewrite (Hd i pc Hl)|]; eauto.
  - unfold main_step.
    destruct (main_pc s) eqn:Hpc; try discriminate; auto.
    + destruct (get_local_network_info w) as [[net|] lines]; discriminate.
    + destruct (k <? W)%nat; discriminate.
    + destruct (stop_event s); discriminate.
    + destruct (ip_queue s); discriminate.
    + destruct (threads s !! i) as [pc|] eqn:Hl; [|discriminate].
      destruct (is_alive pc) eqn:Ha; [|discriminate].
      intros _. right. exists i, pc. auto.
Qed.

Lemma pool_never_deadlocks_witness :
  exists s', step 2 (drive lab_world (populated false [host1; host2] []))
                  (populated false [host1; host2] []) = Some s'.
Proof.
  apply (proj1 (pool_never_deadlocks 2 lab_world (populated false [host1; host2] []))).
  simpl. discriminate.
Defined.

(** X16. Whatever the schedule and whatever the machine answers, the
    workers together run at most [6 * N + 2 * W] statements in a scan of
    [N] hosts with [W] workers: no worker can loop for ever. *)
Theorem worker_statements_bounded W stop0 hosts out acts s :
  exec W acts (populated stop0 hosts out) = Some s ->
  (worker_actions acts + work_left W s <= 6 * length hosts + 2 * W)%nat.
Proof.
  intros H.
  pose proof (work_left_exec W stop0 hosts out acts _ s
                (reachable_refl W (populated stop0 hosts out)) H) as Hb.
  unfold work_left at 2 in Hb. simpl in Hb. lia.
Qed.

Lemma worker_statements_bounded_witness :
  (worker_actions silent_scan
   + work_left 2 (after 2 silent_scan (populated false [host1; host2] []))
   <= 6 * length [host1; host2] + 2 * 2)%nat.
Proof.
  apply (worker_statements_bounded 2 false [host1; host2] [] silent_scan).
  vm_compute. reflexivity.
Defined.

(** X17. In a run that starts with the flag unset, the flag is set only
    after some worker probed a host of the scanned network with result
    [True] and then connected to it with result [True]. *)
Theorem flag_set_only_after_success W hosts out acts s :
  exec W acts (populated false hosts out) = Some s ->
  stop_event s = true ->
  exists t ip, In (EvProbe t ip (Return true)) (trace s) /\
               In (EvConnect t ip (Return true)) (trace s) /\
               In ip hosts.
Proof.
  intros H Hs.
  assert (reachable W (populated false hosts out) s) as Hr by (exists acts; exact H).
  destruct (stop_inv W false hosts out s Hr Hs) as [Hf | (t & ip & Hset)]; [discriminate|].
  pose proof (proj2 (set_inv W false hosts out s Hr) t ip Hset) as Hc.
  destruct (in_split _ _ Hc) as (pre & post & Htr).
  pose proof (proj2 (gate_inv W false hosts out s Hr) pre t ip _ post Htr) as Hp.
  assert (In (EvProbe t ip (Return true)) (trace s)) as Hp'.
  { rewrite Htr. apply in_app_iff. left. exact Hp. }
  exists t, ip. repeat split; try assumption.
  pose proof (in_probed _ _ _ _ Hp') as Hin.
  pose proof (probed_inv W false hosts out s Hr) as Hperm.
  pose proof (queue_inv W false hosts out s Hr) as Hq.
  rewrite <- Hq. apply in_app_iff. left.
  apply (Permutation_in _ Hperm). apply in_app_iff. left. exact Hin.
Qed.

Lemma flag_set_only_after_success_witness :
  exists t ip,
    In (EvProbe t ip (Return true))
       (trace (after 2 race_until_set (populated false [host1; host2] []))) /\
    In (EvConnect t ip (Return true))
       (trace (after 2 race_until_set (populated false [host1; host2] []))) /\
    In ip [host1; host2].
Proof.
  apply (flag_set_only_after_success 2 [host1; host2] [] race_until_set);
    vm_compute; reflexivity.
Defined.

(** X18. At every moment of every run, cancelled or not, the hosts
    dequeued so far followed by the hosts still queued are the hosts that
    were put, in order; every dequeued host has been probed once or is in
    the hands of the worker about to probe it; so there are never more
    probes than hosts. *)
Theorem no_host_taken_twice W stop0 hosts out acts s :
  exec W acts (populated stop0 hosts out) = Some s ->
  dequeued (trace s) ++ ip_queue s = hosts /\
  Permutation (probed (trace s) ++ pending (threads s)) (dequeued (trace s)) /\
  (length (probed (trace s)) <= length hosts)%nat.
Proof.
  intros H.
  assert (reachable W (populated stop0 hosts out) s) as Hr by (exists acts; exact H).
  pose proof (queue_inv W stop0 hosts out s Hr) as Hq.
  pose proof (probed_inv W stop0 hosts out s Hr) as Hp.
  split; [exact Hq|]. split; [exact Hp|].
  apply Permutation_length in Hp. rewrite length_app in Hp.
  rewrite <- Hq, length_app. lia.
Qed.

Lemma no_host_taken_twice_witness :
  (length (probed (trace (after 2 race_until_set (populated false [host1; host2] []))))
   <= length [host1; host2])%nat.
Proof.
  apply (no_host_taken_twice 2 false [host1; host2] [] race_until_set).
  vm_compute. reflexivity.
Defined.

(** X19. When every probe raises (the [ping] binary is missing, say) and
    there are more hosts than workers, the scan never ends: each worker
    dies on its first host, so the queue is never empty and the flag is
    never set, and [main] never leaves its waiting loop. *)
Theorem scan_never_ends_when_probes_raise W hosts out acts s :
  exec W acts (populated false hosts out) = Some s ->
  all_raised (trace s) ->
  (W < length hosts)%nat ->
  ip_queue s <> [] /\ stop_event s = false /\
  main_pc s <> MReturned /\ (forall i, main_pc s <> MJoin i).
Proof.
  intros H Hall HW.
  assert (reachable W (populated false hosts out) s) as Hr by (exists acts; exact H).
  pose proof (dequeue_budget_inv W false hosts out s Hr Hall) as Hb.
  pose proof (queue_inv W false hosts out s Hr) as Hq.
  assert (ip_queue s <> []) as Hne.
  { intros Hn. rewrite Hn, app_nil_r in Hq. rewrite <- Hq in HW. lia. }
  assert (stop_event s = false) as Hs.
  { destruct (stop_event s) eqn:Hs; [|reflexivity].
    destruct (stop_inv W false hosts out s Hr Hs) as [Hf | (t & ip & Hset)]; [discriminate|].
    pose proof (proj2 (set_inv W false hosts out s Hr) t ip Hset) as Hc.
    destruct (in_split _ _ Hc) as (pre & post & Htr).
    pose proof (proj2 (gate_inv W false hosts out s Hr) pre t ip _ post Htr) as Hp.
    destruct (Hall t ip (Return true)) as [e He]; [|discriminate He].
    rewrite Htr. apply in_app_iff. left. exact Hp. }
  pose proof (drained_inv W false hosts out s Hr) as Hd.
  repeat split; try assumption.
  - intros Hm. rewrite Hm in Hd. destruct Hd; congruence.
  - intros i Hm. rewrite Hm in Hd. destruct Hd; congruence.
Qed.

Lemma scan_never_ends_when_probes_raise_witness :
  main_pc (after 2 bare_scan (populated false [host1; host2; host3] [])) <> MReturned.
Proof.
  refine (proj1 (proj2 (proj2
            (scan_never_ends_when_probes_raise 2 [host1; host2; host3] [] bare_scan
               (after 2 bare_scan (populated false [host1; host2; host3] [])) _ _ _)))).
  - vm_compute. reflexivity.
  - intros t ip r Hin. vm_compute in Hin.
    destruct Hin as [Hin | [Hin | [Hin | [Hin | []]]]];
      try discriminate Hin; injection Hin as _ _ <-; eexists; reflexivity.
  - simpl. lia.
Defined.

(** X20. A worker ends in one of two ways only: it returns from the loop
    with the flag set, or it dies with the [AttributeError] of the
    shadowed [except queue.Empty] clause; this is also how it ends on an
    empty queue. *)
Theorem worker_ends_by_flag_or_attribute_error W stop0 hosts out acts s t pc :
  exec W acts (populated stop0 hosts out) = Some s ->
  threads s !! t = Some pc -> is_alive pc = false ->
  (pc = WReturned /\ stop_event s = true) \/ pc = WCrashed AttributeError.
Proof.
  intros H Hl Hd.
  assert (reachable W (populated stop0 hosts out) s) as Hr by (exists acts; exact H).
  destruct (ended_inv W stop0 hosts out s Hr t) as [Hret Hcr].
  destruct pc; try discriminate Hd.
  - left. split; [reflexivity | exact (Hret Hl)].
  - right. rewrite (Hcr e Hl). reflexivity.
Qed.

Lemma worker_ends_by_flag_or_attribute_error_witness :
  (WCrashed AttributeError = WReturned /\
   stop_event (after 2 silent_scan (populated false [host1; host2] [])) = true) \/
  WCrashed AttributeError = WCrashed AttributeError.
Proof.
  apply (worker_ends_by_flag_or_attribute_error 2 false [host1; host2] [] silent_scan
           (after 2 silent_scan (populated false [host1; host2] [])) 0%nat);
    vm_compute; reflexivity.
Defined.

(** X21. The queue's counter of unfinished tasks is at every moment the
    number of queued hosts, plus the hosts in the hands of a worker, plus
    the hosts whose probe or connect raised. So when [main] has returned
    from a scan in which the flag was never set and no call raised, the
    counter is 0: every host was marked done. *)
Theorem task_counter_accounts W stop0 hosts out acts s :
  exec W acts (populated stop0 hosts out) = Some s ->
  unfinished_tasks s =
    (length (ip_queue s) + total holds_item (threads s)
     + length (raised (trace s)))%nat /\
  (main_pc s = MReturned -> stop_event s = false -> raised (trace s) = [] ->
   unfinished_tasks s = 0%nat).
Proof.
  intros H.
  assert (reachable W (populated stop0 hosts out) s) as Hr by (exists acts; exact H).
  pose proof (accounting_inv W stop0 hosts out s Hr) as Ha.
  split; [exact Ha|]. intros Hm Hs Hn.
  pose proof (joined_inv W stop0 hosts out s Hr) as Hj.
  pose proof (drained_inv W stop0 hosts out s Hr) as Hd.
  rewrite Hm in Hj, Hd. destruct Hd as [Hd | Hq]; [congruence|].
  rewrite Ha, Hq, Hn, (total_dead holds_item (threads s)); [reflexivity | | exact Hj].
  intros []; simpl; intros; try discriminate; reflexivity.
Qed.

Lemma task_counter_accounts_witness :
  unfinished_tasks (after 2 silent_scan (populated false [host1; host2] [])) = 0%nat.
Proof.
  refine (proj2 (task_counter_accounts 2 false [host1; host2] [] silent_scan
                   (after 2 silent_scan (populated false [host1; host2] [])) _) _ _ _);
    vm_compute; reflexivity.
Defined.

(** ** A scan on a machine whose tools do not raise comes to its end *)

Section Termination.

Variable W : nat.
Variable stop0 : bool.
Variable hosts : list IPv4Address.
Variable out0 : list string.

Local Abbreviation s0 := (populated stop0 hosts out0).

(** While no call raised, a worker is dead only if the queue is empty or
    the flag is set. *)
Lemma dead_without_raise_inv s :
  reachable W s0 s -> raised (trace s) = [] ->
  forall t pc, threads s !! t = Some pc -> is_alive pc = false ->
               ip_queue s = [] \/ stop_event s = true.
Proof.
  reach_induction s.
  { simpl. intros _ t pc H. discriminate. }
  intros s a s' Hr IH H.
  pose proof (spawned_inv W stop0 hosts out0 s Hr) as Hsp.
  pose proof (tasks_inv W stop0 hosts out0 s Hr) as Htk.
  step_cases H; try contradiction; unfold raised in *;
    rewrite ?omap_app; simpl; rewrite ?app_nil_r;
    intros Hnr t' pc' Hl Hd.
  all: try solve [destruct (omap _ tr); discriminate Hnr].
  all: specialize (IH Hnr).
  all: try solve [eapply IH; eauto].
  all: try solve [right; reflexivity].
  all: try solve [left; reflexivity].
  all: try solve [lookup_cases Hl; [eapply IH; eauto | subst pc'; discriminate Hd]].
  all: try (lookup_cases Hl; [subst pc'; try discriminate Hd | ]).
  all: try solve [eapply IH; eauto].
  all: try solve [destruct (IH _ _ Hl Hd) as [Hq | Hs]; [discriminate Hq | right; exact Hs]].
  pose proof (total_ge holds_item ths t' _ Hpc) as Hge. simpl in Hge, Htk.
  left. destruct q; [reflexivity | simpl in Htk; lia].
Qed.

Lemma step_without_raise a s s' :
  tools_do_not_raise (env a) ->
  raised (trace s) = [] -> step W a s = Some s' -> raised (trace s') = [].
Proof.
  intros Hw Hnr H. step_cases H; unfold raised in *;
    rewrite ?omap_app, ?Hnr; simpl; try reflexivity; try exact Hnr.
  - destruct (proj1 (Hw ip)) as [b Hb]. rewrite Hb in Heqr. discriminate Heqr.
  - destruct (proj2 (Hw ip)) as [b Hb]. rewrite Hb in Heqr. discriminate Heqr.
Qed.

Lemma main_rank_flag_le stop pc :
  (main_rank_with_flag W true pc <= main_rank_with_flag W stop pc)%nat.
Proof. destruct stop, pc; simpl; lia. Qed.

Lemma worker_step_uses_fuel a s s' :
  actor a <> Main -> step W a s = Some s' ->
  (scan_fuel W s' < scan_fuel W s)%nat.
Proof.
  intros Ha H. step_cases H; try (destruct Ha; reflexivity).
  all: unfold scan_fuel; simpl; total_step; simpl in *; try lia.
  pose proof (main_rank_flag_le stop mpc). lia.
Qed.

Lemma main_step_uses_fuel w s :
  (1 <= W)%nat ->
  reachable W s0 s -> raised (trace s) = [] ->
  (forall t pc, threads s !! t = Some pc -> is_alive pc = false) ->
  main_pc s <> MReturned ->
  exists s', step W (Act Main w) s = Some s' /\
             (scan_fuel W s' < scan_fuel W s)%nat.
Proof.
  intros HW Hr Hnr Hdead Hm.
  pose proof (spawned_inv W stop0 hosts out0 s Hr) as Hsp.
  pose proof (dead_without_raise_inv s Hr Hnr) as Hq.
  destruct s as [stop q u ths mpc tr out]. simpl in *.
  unfold step, main_step, scan_fuel. simpl.
  destruct mpc; try contradiction; simpl.
  - destruct Hsp as [Hk HkW]. destruct (Nat.ltb_spec k W).
    + eexists. split; [reflexivity|]. simpl. rewrite total_app. simpl. lia.
    + eexists. split; [reflexivity|]. simpl. destruct stop; lia.
  - destruct stop; eexists; (split; [reflexivity|]); simpl; lia.
  - destruct ths as [| pc ths'] eqn:Hths; [simpl in Hsp; lia|].
    destruct q as [| ip q'].
    + eexists. split; [reflexivity|]. simpl. destruct stop; lia.
    + destruct (Hq 0%nat pc eq_refl (Hdead 0%nat pc eq_refl)) as [Hq' | ->];
        [discriminate Hq'|].
      eexists. split; [reflexivity|]. simpl. lia.
  - eexists. split; [reflexivity|]. simpl. destruct stop; lia.
  - destruct (ths !! i) as [pc|] eqn:Hl.
    + rewrite (Hdead i pc Hl). apply lookup_lt_Some in Hl.
      eexists. split; [reflexivity|]. simpl. lia.
    + eexists. split; [reflexivity|]. simpl. lia.
Qed.

Lemma drive_uses_fuel w s :
  (1 <= W)%nat ->
  reachable W s0 s -> raised (trace s) = [] ->
  main_pc s <> MReturned ->
  exists s', step W (drive w s) s = Some s' /\
             (scan_fuel W s' < scan_fuel W s)%nat.
Proof.
  intros HW Hr Hnr Hm. unfold drive.
  destruct (first_alive (threads s)) as [t|] eqn:Hf.
  - destruct (first_alive_Some _ _ Hf) as (pc & Hl & Ha).
    destruct (worker_step_enabled W w t s pc Hl Ha) as [s' Hs'].
    exists s'. split; [exact Hs'|].
    eapply worker_step_uses_fuel; [|exact Hs']. simpl. discriminate.
  - apply main_step_uses_fuel; auto. apply first_alive_None. exact Hf.
Qed.

Lemma drive_run_ends w :
  (1 <= W)%nat -> tools_do_not_raise w ->
  forall n s,
    reachable W s0 s -> raised (trace s) = [] ->
    (scan_fuel W s <= n)%nat ->
    main_pc (drive_run W w n s) = MReturned /\
    reachable W s0 (drive_run W w n s) /\
    raised (trace (drive_run W w n s)) = [].
Proof.
  intros HW Hw. induction n as [| n IH]; intros s Hr Hnr Hn.
  - simpl. split; [|auto].
    unfold scan_fuel in Hn.
    destruct (main_pc s), (stop_event s); simpl in Hn; try lia; reflexivity.
  - simpl. destruct (main_pc s) eqn:Hm.
    7: { destruct (step W (drive w s) s) as [s'|] eqn:Hs; [|auto].
         pose proof (joined_inv W stop0 hosts out0 s Hr) as Hj. rewrite Hm in Hj.
         unfold drive in Hs. destruct (first_alive (threads s)) as [t|] eqn:Hf.
         - destruct (first_alive_Some _ _ Hf) as (pc & Hl & Ha).
           rewrite (Hj t pc Hl) in Ha. discriminate Ha.
         - unfold step, main_step in Hs. simpl in Hs. rewrite Hm in Hs. discriminate Hs. }
    all: destruct (drive_uses_fuel w s HW Hr Hnr ltac:(rewrite Hm; discriminate))
           as (s' & Hs' & Hlt); rewrite Hs'; apply IH;
         [ exact (reachable_step W s0 s (drive w s) s' Hr Hs')
         | apply (step_without_raise (drive w s) s s');
             [rewrite drive_env; exact Hw | exact Hnr | exact Hs']
         | lia ].
Qed.

End Termination.

(** X22. On a machine on which neither [ping_host] nor
    [attempt_adb_connect] raises, a scan with at least one worker comes to
    its end: from every state of a run in which no call has raised,
    letting the threads run on (live workers first, then [main]) for
    [scan_fuel] statements brings [main] to its return, with every worker
    ended, and with the flag set or the queue empty. *)
Theorem scan_ends_when_tools_do_not_raise W stop0 hosts out acts s w :
  (1 <= W)%nat ->
  exec W acts (populated stop0 hosts out) = Some s ->
  raised (trace s) = [] ->
  tools_do_not_raise w ->
  reachable W s (drive_run W w (scan_fuel W s) s) /\
  main_pc (drive_run W w (scan_fuel W s) s) = MReturned /\
  (forall t pc, threads (drive_run W w (scan_fuel W s) s) !! t = Some pc ->
                is_alive pc = false) /\
  (stop_event (drive_run W w (scan_fuel W s) s) = true \/
   ip_queue (drive_run W w (scan_fuel W s) s) = []).
Proof.
  intros HW H Hnr Hw.
  assert (reachable W (populated stop0 hosts out) s) as Hr by (exists acts; exact H).
  destruct (drive_run_ends W stop0 hosts out w HW Hw (scan_fuel W s) s Hr Hnr
              (Nat.le_refl _)) as (Hm & Hr' & _).
  pose proof (joined_inv W stop0 hosts out _ Hr') as Hj.
  pose proof (drained_inv W stop0 hosts out _ Hr') as Hd.
  rewrite Hm in Hj, Hd.
  split; [apply drive_run_reachable|]. auto.
Qed.

Lemma scan_ends_when_tools_do_not_raise_witness :
  main_pc (drive_run 2 lab_world
             (scan_fuel 2 (populated false [host1; host2] []))
             (populated false [host1; host2] [])) = MReturned.
Proof.
  refine (proj1 (proj2 (scan_ends_when_tools_do_not_raise 2 false [host1; host2] [] []
                          (populated false [host1; host2] []) lab_world _ _ _ _))).
  - lia.
  - reflexivity.
  - reflexivity.
  - intros ip. split; eexists; reflexivity.
Defined.

(** ** What the scan finds *)

Lemma probed_in tr ip : In ip (probed tr) -> exists t r, In (EvProbe t ip r) tr.
Proof.
  induction tr as [| e tr IH]; [intros []|].
  assert (In ip (probed tr) -> exists t r, In (EvProbe t ip r) (e :: tr)) as Hrec.
  { intros H. destruct (IH H) as (t & r & Hin). exists t, r. right. exact Hin. }
  unfold probed in *. destruct e; simpl; try exact Hrec.
  intros [<- | Hin]; [|exact (Hrec Hin)].
  exists t, r. left. reflexivity.
Qed.

Section Findings.

Variable W : nat.
Variable stop0 : bool.
Variable hosts : list IPv4Address.
Variable out0 : list string.

Local Abbreviation s0 := (populated stop0 hosts out0).

(** A worker that saw a host answer goes on to connect to it. *)
Lemma answer_inv s :
  reachable W s0 s ->
  forall t ip, In (EvProbe t ip (Return true)) (trace s) ->
               (exists r, In (EvConnect t ip r) (trace s)) \/
               threads s !! t = Some (WConnect ip).
Proof.
  reach_induction s; [simpl; intros t ip []|].
  intros s a s' _ IH H. step_cases H; intros t' ip' Hin.
  all: try (apply in_app_iff in Hin as [Hin | [He | []]];
            [| try discriminate He; try (injection He as <- <-)]).
  all: try solve [right; apply list_lookup_insert_eq; eapply lookup_lt_Some; eauto].
  all: try solve [destruct (IH _ _ Hin) as [[r' Hc] | Hl];
                  [left; exists r'; in_trace | right; exact Hl]].
  all: try solve [destruct (IH _ _ Hin) as [[r' Hc] | Hl];
                  [left; exists r'; in_trace
                  | right; apply lookup_app_Some; left; exact Hl]].
  all: destruct (IH _ _ Hin) as [[r' Hc] | Hl]; [left; exists r'; in_trace|].
  all: destruct (decide (t = t')) as [<- | Hne];
    [ rewrite Hpc in Hl; first [discriminate Hl | injection Hl as <-; left; eexists; in_trace]
    | right; rewrite list_lookup_insert_ne by exact Hne; exact Hl ].
Qed.

(** In a run on one machine, the trace holds what that machine answers. *)
Lemma machine_inv m acts :
  Forall (fun a => env a = m) acts ->
  forall s, exec W acts s0 = Some s ->
  (forall t ip r, In (EvProbe t ip r) (trace s) -> r = value (ping_host m ip)) /\
  (forall t ip r, In (EvConnect t ip r) (trace s) ->
                  r = value (attempt_adb_connect m ip)).
Proof.
  induction acts as [| a acts IH] using rev_ind; intros Hall s H.
  - simpl in H. injection H as <-. simpl. split; intros t ip r [].
  - apply Forall_app in Hall as [Hall Ha]. apply Forall_inv in Ha.
    rewrite exec_app in H. destruct (exec W acts s0) as [s1|] eqn:H1; [|discriminate].
    simpl in H. destruct (step W a s1) as [s2|] eqn:H2; [|discriminate].
    injection H as <-. destruct (IH Hall s1 eq_refl) as [IHp IHc]. clear IH H1.
    step_cases H2; simpl in Ha; subst m; split; intros t' ip' r' Hin.
    all: try solve [eapply IHp; eauto].
    all: try solve [eapply IHc; eauto].
    all: apply in_app_iff in Hin as [Hin | [He | []]];
      try solve [eapply IHp; eauto]; try solve [eapply IHc; eauto];
      try discriminate He.
    all: injection He as <- <- <-; symmetry; assumption.
Qed.

End Findings.

(** X23. In a run on one machine that starts with the flag unset, when
    [main] has returned the flag is set exactly when some host of the
    network answers the probe and accepts the connection: a device that is
    there is found, and the flag is not set without one. *)
Theorem scan_finds_a_device_iff_one_exists W hosts out w acts s :
  Forall (fun a => env a = w) acts ->
  exec W acts (populated false hosts out) = Some s ->
  main_pc s = MReturned ->
  (stop_event s = true <->
   exists ip, In ip hosts /\ value (ping_host w ip) = Return true /\
              value (attempt_adb_connect w ip) = Return true).
Proof.
  intros Hall H Hm.
  assert (reachable W (populated false hosts out) s) as Hr by (exists acts; exact H).
  destruct (machine_inv W false hosts out w acts Hall s H) as [Hmp Hmc].
  pose proof (probed_inv W false hosts out s Hr) as Hperm.
  pose proof (queue_inv W false hosts out s Hr) as Hq.
  pose proof (joined_inv W false hosts out s Hr) as Hj. rewrite Hm in Hj.
  split.
  - intros Hs.
    destruct (stop_inv W false hosts out s Hr Hs) as [Hf | (t & ip & Hset)]; [discriminate|].
    pose proof (proj2 (set_inv W false hosts out s Hr) t ip Hset) as Hc.
    destruct (in_split _ _ Hc) as (pre & post & Htr).
    pose proof (proj2 (gate_inv W false hosts out s Hr) pre t ip _ post Htr) as Hp.
    assert (In (EvProbe t ip (Return true)) (trace s)) as Hp'.
    { rewrite Htr. apply in_app_iff. left. exact Hp. }
    exists ip. split; [|split].
    + rewrite <- Hq. apply in_app_iff. left.
      apply (Permutation_in _ Hperm). apply in_app_iff. left.
      exact (in_probed _ _ _ _ Hp').
    + symmetry. exact (Hmp _ _ _ Hp').
    + symmetry. exact (Hmc _ _ _ Hc).
  - intros (ip & Hin & Hping & Hadb).
    destruct (stop_event s) eqn:Hs; [reflexivity|]. exfalso.
    pose proof (drained_inv W false hosts out s Hr) as Hd. rewrite Hm in Hd.
    destruct Hd as [Hd | Hd]; [congruence|].
    rewrite Hd, app_nil_r in Hq.
    rewrite (pending_dead _ Hj), app_nil_r, Hq in Hperm.
    apply (Permutation_in _ (Permutation_sym Hperm)) in Hin.
    destruct (probed_in _ _ Hin) as (t & r & Hp).
    rewrite (Hmp _ _ _ Hp), Hping in Hp.
    destruct (answer_inv W false hosts out s Hr t ip Hp) as [[r' Hc] | Hl].
    + rewrite (Hmc _ _ _ Hc), Hadb in Hc.
      destruct (success_inv W false hosts out s Hr t ip Hc) as [Hs' | Hl]; [congruence|].
      specialize (Hj t _ Hl). discriminate Hj.
    + specialize (Hj t _ Hl). discriminate Hj.
Qed.

Lemma scan_finds_a_device_iff_one_exists_witness :
  stop_event (after 2 (race_until_set ++ race_after_set ++ race_finish)
                (populated false [host1; host2] [])) = true.
Proof.
  refine (proj2 (scan_finds_a_device_iff_one_exists 2 [host1; host2] [] lab_world
                   (race_until_set ++ race_after_set ++ race_finish)
                   (after 2 (race_until_set ++ race_after_set ++ race_finish)
                      (populated false [host1; host2] [])) _ _ _) _).
  - repeat constructor.
  - vm_compute. reflexivity.
  - vm_compute. reflexivity.
  - exists host1. split; [left; reflexivity|]. split; reflexivity.
Defined.

(** X24. The first statement of a call of [main] is the discovery, and
    no worker runs before it. When discovery returns no network, [main]
    has returned and nothing else ever happens; when it returns a network,
    the rest of the call is a run of the pool over the hosts of that
    network, queued in the order of [hosts()], with the flag as the
    process had it. *)
Theorem main_queues_the_discovered_hosts W stop a rest s :
  exec W (a :: rest) (process_start stop) = Some s ->
  actor a = Main /\
  match fst (get_local_network_info (env a)) with
  | None => rest = [] /\ main_pc s = MReturned /\ trace s = [] /\ threads s = []
  | Some net => exists out, exec W rest (populated stop (network_hosts net) out) = Some s
  end.
Proof.
  simpl. destruct a as [[| t] w]; unfold step; simpl; [|discriminate].
  unfold main_step, process_start. simpl.
  destruct (get_local_network_info w) as [[net|] lines]; simpl.
  - intros H. split; [reflexivity|]. eexists. exact H.
  - intros H. split; [reflexivity|].
    destruct rest as [| [[| t] w'] rest']; simpl in H; try discriminate H.
    injection H as <-. simpl. auto.
Qed.

Lemma main_queues_the_discovered_hosts_witness :
  exists out,
    exec 2 (race_until_set ++ race_after_set ++ race_finish)
         (populated false (network_hosts lab_network) out)
    = Some (after 2 first_call (process_start false)).
Proof.
  apply (proj2 (main_queues_the_discovered_hosts 2 false (by_main lab_world)
                  (race_until_set ++ race_after_set ++ race_finish)
                  (after 2 first_call (process_start false))
                  ltac:(vm_compute; reflexivity))).
Defined.
